(** * Draw-logic (nonogram) solver: the constraint encoding of
      [draw_logic_solver.py], embedded and verified.

    The program turns the row and column hints of a nonogram into assertions
    for the z3 solver, asks z3 for a model and reads the grid out of it.  The
    z3 expressions the program builds are kept as syntax ([z3.ArithRef],
    [z3.BoolRef]) with their standard semantics over a model; z3's
    [check]/[model] is a parameter of [_solve]. *)

From stdpp Require Import base decidable list list_numbers strings pretty.
From Stdlib Require Import ZArith Lia Ascii.

Local Open Scope Z_scope.

(** ** The fragment of z3 the program uses *)

Module z3.

(** Integer-sorted expressions: Python ints coerced to z3 ([IntVal]),
    [z3.Int(name)] constants, [+] and [*]. *)
Inductive ArithRef : Type :=
| IntVal (n : Z)
| Int (name : string)
| Add (a b : ArithRef)
| Mul (a b : ArithRef).

(** Boolean-sorted expressions.  [Select i] is [self._field[i]], a read of
    the one array constant ['f'] of sort Int -> Bool.  [Or] is the
    three-argument [z3.Or] of the source; [ForAll x p] is
    [z3.ForAll([z3.Int(x)], p)]. *)
Inductive BoolRef : Type :=
| Ge (a b : ArithRef)
| Lt (a b : ArithRef)
| Le (a b : ArithRef)
| Select (idx : ArithRef)
| Not (p : BoolRef)
| Or (p q r : BoolRef)
| ForAll (x : string) (body : BoolRef).

(** A z3 model: the interpretation of the array ['f'] and of every integer
    constant, by name (z3 identifies constants of one sort by name). *)
Record ModelRef : Type := Model {
  array_f : Z → bool;
  int_const : string → Z
}.

Definition bind (x : string) (z : Z) (env : string → Z) : string → Z :=
  λ y, if decide (y = x) then z else env y.

Fixpoint eval (env : string → Z) (a : ArithRef) : Z :=
  match a with
  | IntVal n => n
  | Int name => env name
  | Add a b => eval env a + eval env b
  | Mul a b => eval env a * eval env b
  end.

Fixpoint holds (f : Z → bool) (env : string → Z) (p : BoolRef) : Prop :=
  match p with
  | Ge a b => eval env b ≤ eval env a
  | Lt a b => eval env a < eval env b
  | Le a b => eval env a ≤ eval env b
  | Select idx => f (eval env idx) = true
  | Not p => ¬ holds f env p
  | Or p q r => holds f env p ∨ holds f env q ∨ holds f env r
  | ForAll x body => ∀ z : Z, holds f (bind x z env) body
  end.

(** The names of the integer constants an expression mentions, bound by a
    quantifier or not. *)
Fixpoint arith_consts (a : ArithRef) : list string :=
  match a with
  | IntVal _ => []
  | Int name => [name]
  | Add a b | Mul a b => arith_consts a ++ arith_consts b
  end.

Fixpoint consts (p : BoolRef) : list string :=
  match p with
  | Ge a b | Lt a b | Le a b => arith_consts a ++ arith_consts b
  | Select idx => arith_consts idx
  | Not p => consts p
  | Or p q r => consts p ++ consts q ++ consts r
  | ForAll x body => x :: consts body
  end.

(** The free integer constants: those the solver has to find a value for. *)
Fixpoint free_consts (p : BoolRef) : list string :=
  match p with
  | Ge a b | Lt a b | Le a b => arith_consts a ++ arith_consts b
  | Select idx => arith_consts idx
  | Not p => free_consts p
  | Or p q r => free_consts p ++ free_consts q ++ free_consts r
  | ForAll x body => filter (λ y, y ≠ x) (free_consts body)
  end.

(** [z3.Solver()]: the assertions added so far, oldest first. *)
Definition Solver : Type := list BoolRef.

(** [solver.add(p)] *)
Definition add (p : BoolRef) (s : Solver) : Solver := s ++ [p].

(** [m] satisfies every assertion of the solver. *)
Definition models (m : ModelRef) (s : Solver) : Prop :=
  Forall (holds (array_f m) (int_const m)) s.

(** The answer of [solver.check()], with the model [solver.model()] gives
    after a [sat]. *)
Inductive CheckSatResult : Type :=
| sat (m : ModelRef)
| unsat
| unknown.

End z3.

Import z3.

#[global] Instance ArithRef_inhabited : Inhabited ArithRef := populate (IntVal 0).

(** ** Python's loops and formatting *)

(** [xrange(n)] for a Python int [n]: empty when [n <= 0]. *)
Definition xrange (n : Z) : list Z := seqZ 0 n.

(** [range(n)] for a length [n]. *)
Definition range (n : nat) : list nat := seq 0 n.

(** [for x in xs: body(x)] on the solver. *)
Definition for_ {A S : Type} (xs : list A) (body : A → S → S) (s : S) : S :=
  foldl (λ s x, body x s) s xs.

(** ['%s%d' % (prefix, i)] *)
Definition fmt_sd (prefix : string) (i : nat) : string := prefix +:+ pretty i.
(** ['%s_%d' % (prefix, i)] *)
Definition fmt_s_d (prefix : string) (i : nat) : string := prefix +:+ "_" +:+ pretty i.
(** ['%s__1' % prefix] *)
Definition fmt_s__1 (prefix : string) : string := prefix +:+ "__1".

(** ** [DrawLogic._add_column] *)

(** [self._field[base + skip * fa]] for a z3 integer [fa]. *)
Definition field_at (base skip : Z) (fa : ArithRef) : BoolRef :=
  Select (Add (IntVal base) (Mul (IntVal skip) fa)).

(** The list indices [v[0]], [v[i]], [v[i + 1]], [v[-1]], [numbers[i]] and
    [numbers[-1]] are read with the total lookup [!!!]: in the second branch
    [numbers] is not empty and [v] has its length, so every index is in
    range and Python raises no IndexError there.  [xrange] is taken without
    the C long limit of Python 2: this is the call on numbers and a [size]
    that fit a C long, see [fits_c_long] below. *)
Definition _add_column (numbers : list Z) (skip base size : Z) (prefix : string)
    (solver : Solver) : Solver :=
  if decide (numbers = []) then
    for_ (xrange size) (λ i, add (Not (Select (IntVal (base + skip * i))))) solver
  else
    let n := length numbers in
    let v := (λ i, Int (fmt_sd prefix i)) <$> range n in
    let solver := add (Ge (v !!! 0%nat) (IntVal 0)) solver in
    let solver :=
      for_ (range (n - 1))
        (λ i, add (Lt (Add (v !!! i) (IntVal (numbers !!! i))) (v !!! S i)))
        solver in
    let solver :=
      add (Le (Add (v !!! (n - 1)%nat) (IntVal (numbers !!! (n - 1)%nat)))
              (IntVal size)) solver in
    let solver :=
      for_ (zip v numbers)
        (λ '(s, c), for_ (xrange c)
           (λ i, add (Select (Add (IntVal base)
                                  (Mul (Add s (IntVal i)) (IntVal skip))))))
        solver in
    let fa := Int (fmt_s__1 prefix) in
    let solver :=
      add (ForAll (fmt_s__1 prefix)
             (Or (Lt fa (IntVal 0)) (Le (v !!! 0%nat) fa)
                 (Not (field_at base skip fa)))) solver in
    let solver :=
      for_ (range (n - 1))
        (λ i, let fa := Int (fmt_s_d prefix i) in
              add (ForAll (fmt_s_d prefix i)
                     (Or (Lt fa (Add (v !!! i) (IntVal (numbers !!! i))))
                         (Le (v !!! S i) fa)
                         (Not (field_at base skip fa)))))
        solver in
    let fa := Int (fmt_s_d prefix n) in
    add (ForAll (fmt_s_d prefix n)
           (Or (Lt fa (Add (v !!! (n - 1)%nat) (IntVal (numbers !!! (n - 1)%nat))))
               (Ge fa (IntVal size))
               (Not (field_at base skip fa)))) solver.

(** ** The [DrawLogic] object *)

(** The answer grid [f0]: a list of [width] columns, each a list of [height]
    booleans, read as [f0[i][j]] with [i] the column and [j] the row. *)
Abbreviation Grid := (list (list bool)).

(** The attributes of a [DrawLogic] instance.  [_solver] is the z3 solver of
    the last [_solve] (no assertion before it).  [_solve_calls] is a ghost
    counter, not an attribute of the source: the number of times [_solve]
    ran, that is, the number of times the puzzle went to z3. *)
Record DrawLogic : Type := mkDrawLogic {
  _horizontal_hints : list (list Z);
  _vertical_hints : list (list Z);
  _solved : bool;
  _answer : option Grid;
  _solver : Solver;
  _solve_calls : nat
}.

Definition with_solved (b : bool) (self : DrawLogic) : DrawLogic :=
  mkDrawLogic (_horizontal_hints self) (_vertical_hints self) b
    (_answer self) (_solver self) (_solve_calls self).
Definition with_answer (a : option Grid) (self : DrawLogic) : DrawLogic :=
  mkDrawLogic (_horizontal_hints self) (_vertical_hints self) (_solved self)
    a (_solver self) (_solve_calls self).
Definition with_solver (s : Solver) (self : DrawLogic) : DrawLogic :=
  mkDrawLogic (_horizontal_hints self) (_vertical_hints self) (_solved self)
    (_answer self) s (_solve_calls self).
Definition count_solve_call (self : DrawLogic) : DrawLogic :=
  mkDrawLogic (_horizontal_hints self) (_vertical_hints self) (_solved self)
    (_answer self) (_solver self) (S (_solve_calls self)).

(** [DrawLogic.__init__] *)
Definition __init__ (horizontal vertical : list (list Z)) : DrawLogic :=
  mkDrawLogic horizontal vertical false None [] 0.

(** [enumerate(xs)] *)
Definition enumerate {A : Type} (xs : list A) : list (nat * A) :=
  imap (λ i x, (i, x)) xs.

(** ['h%d' % i] and ['v%d' % i] *)
Definition fmt_h (i : nat) : string := "h" +:+ pretty i.
Definition fmt_v (i : nat) : string := "v" +:+ pretty i.

(** The assertions [_solve] hands to z3: its two loops over the hint lines,
    from a new solver. *)
Definition encode (horizontal vertical : list (list Z)) : Solver :=
  let width := length vertical in
  let height := length horizontal in
  let solver : Solver := [] in
  let solver :=
    for_ (enumerate horizontal)
      (λ '(i, c), _add_column c 1 (Z.of_nat i * Z.of_nat width)
                    (Z.of_nat width) (fmt_h i)) solver in
  for_ (enumerate vertical)
    (λ '(i, c), _add_column c (Z.of_nat width) (Z.of_nat i)
                  (Z.of_nat height) (fmt_v i)) solver.

(** The grid [_solve] reads out of a model: [f0] starts all [False] and is
    updated in place, [f0[i][j] = ...], row by row.  The test
    [str(m.eval(self._field[j * width + i])) == 'True'] is the value of the
    array at that index in the model. *)
Definition read_grid (m : ModelRef) (width height : nat) : Grid :=
  let f0 : Grid := replicate width (replicate height false) in
  for_ (range height)
    (λ j, for_ (range width)
       (λ i, alter (<[j := array_f m (Z.of_nat j * Z.of_nat width + Z.of_nat i)]>) i))
    f0.

Section Solve.

(** z3 itself: [self._solver.check()] on the assertions added, with the
    model [self._solver.model()] returns when the answer is [sat]. *)
Variable check : Solver → CheckSatResult.

(** [DrawLogic._solve] *)
Definition _solve (self : DrawLogic) : option Grid * DrawLogic :=
  let self := count_solve_call self in
  let width := length (_vertical_hints self) in
  let height := length (_horizontal_hints self) in
  let self := with_solver (encode (_horizontal_hints self) (_vertical_hints self)) self in
  match check (_solver self) with
  | sat m => (Some (read_grid m width height), self)
  | _ => (None, self)
  end.

(** [DrawLogic.solve].  [_solved] is set before [_solve] runs; [_solve]
    raises nothing on hints that fit a C long, see [hints_fit] below. *)
Definition solve (self : DrawLogic) : option Grid * DrawLogic :=
  if negb (_solved self) then
    let self := with_solved true self in
    let '(a, self) := _solve self in
    let self := with_answer a self in
    (_answer self, self)
  else (_answer self, self).

(** How a call ends: it returns, or an IndexError escapes it. *)
Inductive outcome : Type := Returned | IndexError.

(** [fout.write(s)]: [fout] is what has been written so far. *)
Definition write (s : string) (fout : string) : outcome * string :=
  (Returned, fout +:+ s).

(** A [for] loop whose body writes and may raise: the loop stops at the
    first exception, what was written stays written. *)
Fixpoint for_io {A : Type} (xs : list A) (body : A → string → outcome * string)
    (fout : string) : outcome * string :=
  match xs with
  | [] => (Returned, fout)
  | x :: xs =>
      match body x fout with
      | (Returned, fout) => for_io xs body fout
      | raised => raised
      end
  end.

Definition newline : string := String "010"%char EmptyString.

(** [DrawLogic.print_answer]; [fout] is what the stream holds before the
    call.  [q[0]] raises on an empty [q], and [q[i][j]] on a column shorter
    than the first one. *)
Definition print_answer (self : DrawLogic) (fout : string)
    : outcome * string * DrawLogic :=
  let '(q, self) := solve self in
  match q with
  | None =>
      let '(r, fout) := write ("No solutions!" +:+ newline) fout in
      (r, fout, self)
  | Some q =>
      match q !! 0%nat with
      | None => (IndexError, fout, self)
      | Some q0 =>
          let '(r, fout) :=
            for_io (range (length q0))
              (λ j fout,
                 match
                   for_io (range (length q))
                     (λ i fout,
                        match q !! i ≫= (.!! j) with
                        | None => (IndexError, fout)
                        | Some true => write "x" fout
                        | Some false => write "_" fout
                        end) fout
                 with
                 | (Returned, fout) => write newline fout
                 | raised => raised
                 end) fout in
          (r, fout, self)
      end
  end.

End Solve.

(** ** What a line encoding says *)

(** The cell of a line at position [k]: index [base + skip * k] of the array. *)
Definition cell (f : Z → bool) (skip base : Z) (k : Z) : bool := f (base + skip * k).

(** The cells of a line of [size] cells, first to last. *)
Definition line_cells (f : Z → bool) (skip base size : Z) : list bool :=
  cell f skip base <$> xrange size.

(** The placement of the runs [numbers] at the start offsets [o 0], [o 1], ...
    in the line: the offsets are ordered with a gap after each run, each run
    is filled, and the cells before, between and after the runs are empty. *)
Record line_placed (f : Z → bool) (o : nat → Z) (numbers : list Z)
    (skip base size : Z) : Prop := {
  placed_first : 0 ≤ o 0%nat;
  placed_order : ∀ i, (S i < length numbers)%nat →
    o i + numbers !!! i < o (S i);
  placed_last :
    o (length numbers - 1)%nat + numbers !!! (length numbers - 1)%nat ≤ size;
  placed_filled : ∀ i c t, numbers !! i = Some c → 0 ≤ t < c →
    f (base + (o i + t) * skip) = true;
  placed_before : ∀ z, 0 ≤ z < o 0%nat → cell f skip base z = false;
  placed_between : ∀ i z, (S i < length numbers)%nat →
    o i + numbers !!! i ≤ z < o (S i) → cell f skip base z = false;
  placed_after : ∀ z,
    o (length numbers - 1)%nat + numbers !!! (length numbers - 1)%nat ≤ z < size →
    cell f skip base z = false
}.

(** The start offsets a model gives to the placement variables of a line. *)
Definition offsets (m : ModelRef) (prefix : string) : nat → Z :=
  λ i, int_const m (fmt_sd prefix i).


(** ** Hints read off a line (the puzzle's side of the encoding) *)

(** The run lengths of a line of cells, first to last: [cur] is the length of
    the run of filled cells that ends just before the cells still to read. *)
Fixpoint runs_from (cur : Z) (l : list bool) : list Z :=
  match l with
  | [] => if decide (0 < cur) then [cur] else []
  | true :: l => runs_from (cur + 1) l
  | false :: l => if decide (0 < cur) then cur :: runs_from 0 l else runs_from 0 l
  end.

(** The hint line a line of cells answers to: the lengths of its maximal runs
    of filled cells, in order; no number at all for a line without a filled
    cell. *)
Definition line_hints (l : list bool) : list Z := runs_from 0 l.

(** The number of filled cells of a line. *)
Definition filled_cells (l : list bool) : Z :=
  Z.of_nat (length (filter (λ b, b = true) l)).

(** [sum(numbers)] *)
Definition sum (numbers : list Z) : Z := foldr Z.add 0 numbers.

(** The runs [(offset, length)] laid out from position [pos] to the end of the
    line, each after a gap of at least one empty cell, and nothing else
    filled. *)
Fixpoint runs_laid (c : Z → bool) (size pos : Z) (ps : list (Z * Z)) : Prop :=
  match ps with
  | [] => pos ≤ size ∧ ∀ z, pos ≤ z < size → c z = false
  | (o, h) :: ps =>
      pos < o ∧ 0 < h ∧ (∀ z, pos ≤ z < o → c z = false)
      ∧ (∀ z, o ≤ z < o + h → c z = true) ∧ runs_laid c size (o + h) ps
  end.


(** ** Sample lines *)

(** A model for the line [xx_x_] of five cells with the hints [2 1] under
    the prefix [h0]: the runs start at offsets 0 and 3. *)
Definition sample_line_model : ModelRef :=
  Model (λ k, bool_decide (k = 0 ∨ k = 1 ∨ k = 3))
        (λ name, if decide (name = "h01") then 3 else 0).


(** ** The grid of a model *)

(** The grid a model stands for, column by column: cell [(i, j)] is the
    array at index [j * width + i]. *)
Definition grid_of (f : Z → bool) (width height : nat) : Grid :=
  (λ i, (λ j, f (Z.of_nat j * Z.of_nat width + Z.of_nat i)) <$> range height)
  <$> range width.


(** ** Calling [solve] again, and the text of an answer *)

(** [n] calls of [solve] in a row on one instance: the answers returned, in
    order, and the instance after the last call. *)
Fixpoint solve_times (check : Solver → CheckSatResult) (n : nat)
    (self : DrawLogic) : list (option Grid) * DrawLogic :=
  match n with
  | O => ([], self)
  | S n =>
      let '(a, self) := solve check self in
      let '(rest, self) := solve_times check n self in
      (a :: rest, self)
  end.

(** The character of a cell in the output: [x] for filled, [_] for empty. *)
Definition cell_char (b : bool) : ascii := if b then "x"%char else "_"%char.

Fixpoint string_of_chars (l : list ascii) : string :=
  match l with
  | [] => EmptyString
  | c :: l => String c (string_of_chars l)
  end.

(** The strings of a list, one after the other. *)
Definition join (l : list string) : string := foldr String.append EmptyString l.

(** Cell [(i, j)] of a grid, column [i], row [j]. *)
Definition grid_cell (q : Grid) (i j : nat) : option bool := q !! i ≫= (.!! j).

(** The lines of the output for a grid of [width] columns and [height] rows,
    top row first: line [j] has the character of cell [(i, j)] at column
    [i]. *)
Definition answer_lines (q : Grid) (width height : nat) : list string :=
  (λ j, string_of_chars
          ((λ i, cell_char (default false (grid_cell q i j))) <$> range width))
  <$> range height.


(** ** Sample puzzles *)

(** A model with every cell empty. *)
Definition empty_model : ModelRef := Model (λ _, false) (λ _, 0).

(** z3 answering [sat] with one given model, and z3 answering [unsat]. *)
Definition check_sat (m : ModelRef) : Solver → CheckSatResult := λ _, sat m.
Definition check_unsat : Solver → CheckSatResult := λ _, unsat.

(** The puzzle of the usage documentation: 5 columns, 3 rows. *)
Definition doc_horizontal : list (list Z) := [[3]; [1; 1]; [3]].
Definition doc_vertical : list (list Z) := [[1]; [1; 1]; [1; 1]; [1; 1]; [1]].

(** Its answer, column by column: [_xxx_], [x___x], [_xxx_] row by row. *)
Definition doc_grid : Grid :=
  [[false; true; false]; [true; false; true]; [true; false; true];
   [true; false; true]; [false; true; false]].

(** The value of a name in a table of integer constants, 0 when absent. *)
Fixpoint table_value (table : list (string * Z)) (name : string) : Z :=
  match table with
  | [] => 0
  | (x, z) :: table => if decide (name = x) then z else table_value table name
  end.

(** A model of its assertions: the filled cells of [doc_grid] and the start
    offset of every run. *)
Definition doc_model : ModelRef :=
  Model (λ k, bool_decide (k ∈ [1; 2; 3; 5; 9; 11; 12; 13]))
        (table_value
           [("h00", 1); ("h10", 0); ("h11", 4); ("h20", 1);
            ("v00", 1); ("v10", 0); ("v11", 2); ("v20", 0); ("v21", 2);
            ("v30", 0); ("v31", 2); ("v40", 1)]).

(** The hints of the same scenario as the specification states them, with
    any hint line [c3] for the fourth column. *)
Definition spec_horizontal : list (list Z) := [[3]; [1; 1]; [1]].
Definition spec_vertical (c3 : list Z) : list (list Z) :=
  [[1; 1]; [1; 1]; [1; 1]; c3; [1]].


(** ** Hints derived from a grid *)

(** Row [j] of a grid, left to right. *)
Definition grid_row (q : Grid) (j : nat) : list bool :=
  (λ col, default false (col !! j)) <$> q.

(** The hint lines of the rows of a grid of [height] rows, top to bottom, and
    of its columns, left to right. *)
Definition row_hints (q : Grid) (height : nat) : list (list Z) :=
  (λ j, line_hints (grid_row q j)) <$> range height.
Definition column_hints (q : Grid) : list (list Z) := line_hints <$> q.

(** A grid of 21 columns and 12 rows: row 1 is [x_x_x_x_x_x_x_x_x_x_x]
    (eleven runs of one cell), row 11 is [xx] followed by 19 empty cells,
    and the other rows are empty. *)
Definition collision_grid : Grid :=
  (λ i, (λ j, (Nat.eqb j 1 && Nat.even i) || (Nat.eqb j 11 && Nat.ltb i 2))
        <$> range 12) <$> range 21.

(** The start offsets of the runs of a line, read like [runs_from]: [pos] is
    the position of the first cell still to read and [cur] the length of the
    run that ends just before it. *)
Fixpoint starts_from (pos cur : Z) (l : list bool) : list Z :=
  match l with
  | [] => if decide (0 < cur) then [pos - cur] else []
  | true :: l => starts_from (pos + 1) (cur + 1) l
  | false :: l =>
      if decide (0 < cur) then (pos - cur) :: starts_from (pos + 1) 0 l
      else starts_from (pos + 1) 0 l
  end.

Definition run_starts (l : list bool) : list Z := starts_from 0 0 l.

(** As [runs_laid], but the first run may start right at [pos]. *)
Definition runs_laid_at (c : Z → bool) (size pos : Z) (ps : list (Z * Z)) : Prop :=
  match ps with
  | [] => pos ≤ size ∧ ∀ z, pos ≤ z < size → c z = false
  | (o, h) :: ps =>
      pos ≤ o ∧ 0 < h ∧ (∀ z, pos ≤ z < o → c z = false)
      ∧ (∀ z, o ≤ z < o + h → c z = true) ∧ runs_laid c size (o + h) ps
  end.

(** ** A model for the hints of a grid *)

(** The placement variables of one line, named as [_add_column] names them,
    with the start offsets of the runs of the line. *)
Definition line_table (prefix : string) (cells : list bool) : list (string * Z) :=
  imap (λ k o, (fmt_sd prefix k, o)) (run_starts cells).

(** The placement variables of every row and every column of the grid of
    [width] columns and [height] rows held by the array [f]. *)
Definition grid_table (f : Z → bool) (width height : nat) : list (string * Z) :=
  (range height ≫= λ j,
     line_table (fmt_h j)
       (line_cells f 1 (Z.of_nat j * Z.of_nat width) (Z.of_nat width)))
  ++ (range width ≫= λ i,
        line_table (fmt_v i)
          (line_cells f (Z.of_nat width) (Z.of_nat i) (Z.of_nat height))).

(** The model that holds the grid and gives every placement variable the
    start of its run. *)
Definition grid_model (f : Z → bool) (width height : nat) : ModelRef :=
  Model f (table_value (grid_table f width height)).

(** No line of the grid has more than [bound] runs. *)
Definition runs_bounded (f : Z → bool) (width height bound : nat) : Prop :=
  (∀ j, (j < height)%nat →
     (length (line_hints (line_cells f 1 (Z.of_nat j * Z.of_nat width)
                            (Z.of_nat width))) ≤ bound)%nat)
  ∧ (∀ i, (i < width)%nat →
       (length (line_hints (line_cells f (Z.of_nat width) (Z.of_nat i)
                              (Z.of_nat height))) ≤ bound)%nat).

(** The array that holds a grid of [width] columns: index [j * width + i] is
    cell [(i, j)]. *)
Definition array_of_grid (q : Grid) (width : nat) : Z → bool :=
  λ k, default false
         (grid_cell q (Z.to_nat (k `mod` Z.of_nat width))
                      (Z.to_nat (k `div` Z.of_nat width))).

(** ** More on one line *)

(** The hint line [c] with the convention of the input format undone: the
    one number 0 stands for a line without runs. *)
Definition drop_zero_line (c : list Z) : list Z :=
  if decide (c = [0]) then [] else c.

(** A hint line as the input format means it: positive numbers, or the one
    number 0. *)
Definition hint_line_ok (c : list Z) : Prop := c = [0] ∨ Forall (λ x, 0 < x) c.

(** The model that holds the array [f] and gives the placement variables of
    the one line [prefix] the starts of the runs of [cells]. *)
Definition line_model (f : Z → bool) (prefix : string) (cells : list bool) : ModelRef :=
  Model f (table_value (line_table prefix cells)).

(** The assertions [_add_column] adds for a non-empty hint line, in the
    order it adds them: the order of the offsets, the filled cells of every
    run, and the three kinds of quantified assertions for the empty cells. *)
Definition line_assertions (numbers : list Z) (skip base size : Z)
    (prefix : string) : list BoolRef :=
  let n := length numbers in
  let v := (λ i, Int (fmt_sd prefix i)) <$> range n in
  [Ge (v !!! 0%nat) (IntVal 0)]
  ++ ((λ i, Lt (Add (v !!! i) (IntVal (numbers !!! i))) (v !!! S i))
      <$> range (n - 1))
  ++ [Le (Add (v !!! (n - 1)%nat) (IntVal (numbers !!! (n - 1)%nat))) (IntVal size)]
  ++ (zip v numbers ≫= λ sc,
        (λ i, Select (Add (IntVal base) (Mul (Add sc.1 (IntVal i)) (IntVal skip))))
        <$> xrange sc.2)
  ++ [ForAll (fmt_s__1 prefix)
        (Or (Lt (Int (fmt_s__1 prefix)) (IntVal 0))
            (Le (v !!! 0%nat) (Int (fmt_s__1 prefix)))
            (Not (field_at base skip (Int (fmt_s__1 prefix)))))]
  ++ ((λ i, ForAll (fmt_s_d prefix i)
              (Or (Lt (Int (fmt_s_d prefix i))
                      (Add (v !!! i) (IntVal (numbers !!! i))))
                  (Le (v !!! S i) (Int (fmt_s_d prefix i)))
                  (Not (field_at base skip (Int (fmt_s_d prefix i))))))
      <$> range (n - 1))
  ++ [ForAll (fmt_s_d prefix n)
        (Or (Lt (Int (fmt_s_d prefix n))
                (Add (v !!! (n - 1)%nat) (IntVal (numbers !!! (n - 1)%nat))))
            (Ge (Int (fmt_s_d prefix n)) (IntVal size))
            (Not (field_at base skip (Int (fmt_s_d prefix n)))))].

(** ** [read_input] and [main] *)

(** [fin.readline()] on the text still to read: the next line with its line
    feed (the rest of the text when it has none, the empty string at the
    end), and the text left. *)
Fixpoint readline (fin : string) : string * string :=
  match fin with
  | EmptyString => (EmptyString, EmptyString)
  | String c fin =>
      if decide (c = "010"%char) then (String c EmptyString, fin)
      else let '(line, rest) := readline fin in (String c line, rest)
  end.

(** [s.split()] without argument: the maximal runs of characters that are
    not whitespace (space, tab, line feed, vertical tab, form feed, carriage
    return), in order; [cur] is the run being read. *)
Fixpoint split_from (cur : string) (s : string) : list string :=
  match s with
  | EmptyString => if decide (cur = EmptyString) then [] else [cur]
  | String c s =>
      if Ascii.is_space c then
        if decide (cur = EmptyString) then split_from EmptyString s
        else cur :: split_from EmptyString s
      else split_from (cur +:+ String c EmptyString) s
  end.

Definition split (s : string) : list string := split_from EmptyString s.

(** The exceptions [read_input] and [print_answer] let escape. *)
Inductive exception : Type := index_error | value_error | overflow_error.

Section Read.

(** Python's [int] on a string: the integer it denotes, [None] when it
    raises ValueError. *)
Variable int : string → option Z.

(** [[int(hint) for hint in tokens]]: the first token [int] refuses raises. *)
Fixpoint ints (tokens : list string) : exception + list Z :=
  match tokens with
  | [] => inr []
  | t :: tokens =>
      match int t with
      | None => inl value_error
      | Some z =>
          match ints tokens with
          | inl e => inl e
          | inr zs => inr (z :: zs)
          end
      end
  end.

(** [[[int(hint) for hint in fin.readline().split()] for _ in xrange(n)]],
    with the text left to read. *)
Fixpoint read_lines (n : nat) (fin : string)
    : (exception + list (list Z)) * string :=
  match n with
  | O => (inr [], fin)
  | S n =>
      let '(line, fin) := readline fin in
      match ints (split line) with
      | inl e => (inl e, fin)
      | inr c =>
          match read_lines n fin with
          | (inr cs, fin) => (inr (c :: cs), fin)
          | raised => raised
          end
      end
  end.

(** [sys.maxint], the largest C long.  [xrange(n)] raises OverflowError when
    [n] does not fit a C long, and is empty for a negative [n]. *)
Variable maxint : Z.

Definition fits_long (n : Z) : Prop := - maxint - 1 ≤ n ≤ maxint.

#[global] Instance fits_long_dec (n : Z) : Decision (fits_long n).
Proof. unfold fits_long. apply _. Defined.

(** [read_input]: [first[0]] and [first[1]] raise IndexError on a first line
    with fewer tokens, and [int(first[0])] is evaluated before [first[1]] is
    read.  [xrange(height)] is evaluated before the horizontal hint lines are
    read, [xrange(width)] after them. *)
Definition read_input (fin : string)
    : (exception + list (list Z) * list (list Z)) * string :=
  let '(line, fin) := readline fin in
  let first := split line in
  match first !! 0%nat with
  | None => (inl index_error, fin)
  | Some t0 =>
      match int t0 with
      | None => (inl value_error, fin)
      | Some width =>
          match first !! 1%nat with
          | None => (inl index_error, fin)
          | Some t1 =>
              match int t1 with
              | None => (inl value_error, fin)
              | Some height =>
                  if decide (fits_long height) then
                    match read_lines (Z.to_nat height) fin with
                    | (inl e, fin) => (inl e, fin)
                    | (inr horizontal_hints, fin) =>
                        if decide (fits_long width) then
                          match read_lines (Z.to_nat width) fin with
                          | (inl e, fin) => (inl e, fin)
                          | (inr vertical_hints, fin) =>
                              (inr (horizontal_hints, vertical_hints), fin)
                          end
                        else (inl overflow_error, fin)
                    end
                  else (inl overflow_error, fin)
              end
          end
      end
  end.

(** [main], with [stdin] the text of the standard input and [stdout] what the
    standard output holds: how it ends and what the output holds then. *)
Definition main (check : Solver → CheckSatResult) (stdin stdout : string)
    : (exception + unit) * string :=
  match read_input stdin with
  | (inl e, _) => (inl e, stdout)
  | (inr (horizontal, vertical), _) =>
      let '(r, stdout, _) :=
        print_answer check (__init__ horizontal vertical) stdout in
      (match r with Returned => inr tt | IndexError => inl index_error end,
       stdout)
  end.

End Read.

(** ** Writing an input *)

(** The tokens of a line with one space between them. *)
Fixpoint unwords (tokens : list string) : string :=
  match tokens with
  | [] => EmptyString
  | [t] => t
  | t :: tokens => t +:+ " " +:+ unwords tokens
  end.

(** A line of the input: the numbers in decimal, separated by a space, and a
    line feed. *)
Definition format_line (numbers : list Z) : string :=
  unwords (pretty <$> numbers) +:+ newline.

(** The text of a puzzle as the usage documentation shows it: width and
    height, the horizontal hint lines, the vertical hint lines. *)
Definition format_input (horizontal vertical : list (list Z)) : string :=
  format_line [Z.of_nat (length vertical); Z.of_nat (length horizontal)]
  +:+ join (format_line <$> horizontal) +:+ join (format_line <$> vertical).

(** A string without whitespace. *)
Fixpoint no_space (s : string) : bool :=
  match s with
  | EmptyString => true
  | String c s => negb (Ascii.is_space c) && no_space s
  end.

(** A sample [int]: the decimal numbers, with a minus sign or without; it
    refuses everything else. *)
Fixpoint digits_value (acc : Z) (s : string) : option Z :=
  match s with
  | EmptyString => Some acc
  | String c s =>
      match Ascii.is_nat c with
      | Some d => digits_value (10 * acc + Z.of_nat d) s
      | None => None
      end
  end.

Definition int_decimal (s : string) : option Z :=
  match s with
  | EmptyString => None
  | String "-" EmptyString => None
  | String "-" s => Z.opp <$> digits_value 0 s
  | s => digits_value 0 s
  end.

(** A sample [sys.maxint], that of a 64-bit C long. *)
Definition maxint64 : Z := 2 ^ 63 - 1.

(** ** Hints that fit a C long *)

(** In Python 2, [xrange(c)] raises OverflowError for a [c] that does not fit
    a C long.  [_add_column] above takes [xrange] without this limit: it is
    the call on numbers and a [size] that fit, and [encode], [_solve],
    [solve] and [print_answer] are the calls on hints that fit (the other
    arguments of [xrange] are lengths of lists).  A C long has 32 bits at
    least, [sys.maxint] is [2^31 - 1] or more: a number of the 32-bit range
    fits a C long on every platform. *)
Definition maxint32 : Z := 2 ^ 31 - 1.

Definition fits_c_long (c : Z) : Prop := fits_long maxint32 c.

Definition hints_fit (hints : list (list Z)) : Prop :=
  Forall (Forall fits_c_long) hints.
(** Closed hints fit a C long. *)
Ltac solve_fits :=
  unfold hints_fit, fits_c_long, fits_long, maxint32;
  cbn [_horizontal_hints _vertical_hints __init__];
  repeat constructor; lia.

(** ** Names of the z3 constants *)

Lemma pretty_N_go_ne_underscore (x : N) (s s' : string) :
  s ≠ "_" +:+ s' → pretty_N_go x s ≠ "_" +:+ s'.
Proof.
  revert s. induction (N.lt_wf_0 x) as [x _ IH]; intros s Hs.
  destruct (decide (x = 0%N)) as [->|Hx].
  - by rewrite pretty_N_go_0.
  - rewrite pretty_N_go_step by lia. apply IH.
    + apply N.div_lt; lia.
    + unfold pretty_N_char. repeat case_match; discriminate.
Qed.

Lemma pretty_nat_ne_underscore (i : nat) (s : string) : pretty i ≠ "_" +:+ s.
Proof.
  unfold pretty, pretty_nat, pretty, pretty_N.
  case_decide; [discriminate|].
  apply pretty_N_go_ne_underscore. discriminate.
Qed.

Lemma fmt_sd_ne_s__1 prefix i : fmt_sd prefix i ≠ fmt_s__1 prefix.
Proof.
  unfold fmt_sd, fmt_s__1. intros H%(inj (String.app prefix)).
  by apply (pretty_nat_ne_underscore i "_1").
Qed.

Lemma fmt_sd_ne_s_d prefix i j : fmt_sd prefix i ≠ fmt_s_d prefix j.
Proof.
  unfold fmt_sd, fmt_s_d. intros H%(inj (String.app prefix)).
  by apply (pretty_nat_ne_underscore i (pretty j)).
Qed.

Lemma fmt_sd_inj prefix i j : fmt_sd prefix i = fmt_sd prefix j → i = j.
Proof. unfold fmt_sd. intros H%(inj (String.app prefix)). by apply (inj pretty). Qed.

(** ** What [_add_column] adds to the solver *)

Section Models.
Context (m : ModelRef).

Lemma models_nil : models m [].
Proof. constructor. Qed.

Lemma models_app s1 s2 : models m (s1 ++ s2) ↔ models m s1 ∧ models m s2.
Proof. apply Forall_app. Qed.

Lemma models_add p s :
  models m (add p s) ↔ models m s ∧ holds (array_f m) (int_const m) p.
Proof. unfold add. rewrite models_app. unfold models. by rewrite Forall_singleton. Qed.

Lemma models_for_add {A : Type} (g : A → BoolRef) (body : A → Solver → Solver)
    (xs : list A) (s : Solver) :
  (∀ x s, body x s = add (g x) s) →
  models m (for_ xs body s)
  ↔ models m s ∧ ∀ x, x ∈ xs → holds (array_f m) (int_const m) (g x).
Proof.
  intros Hbody. unfold for_. revert s.
  induction xs as [|x xs IH]; intros s; simpl.
  - split; [intros ?; split; [done|by intros ? ?%elem_of_nil]|by intros [? _]].
  - rewrite IH, Hbody, models_add. setoid_rewrite elem_of_cons.
    intuition (subst; eauto).
Qed.

Lemma models_for_for_add {A B : Type} (g : A → B → BoolRef) (ys : A → list B)
    (body : A → Solver → Solver) (xs : list A) (s : Solver) :
  (∀ x s, body x s = for_ (ys x) (λ y, add (g x y)) s) →
  models m (for_ xs body s)
  ↔ models m s ∧ ∀ x y, x ∈ xs → y ∈ ys x → holds (array_f m) (int_const m) (g x y).
Proof.
  intros Hbody. unfold for_ at 1. revert s.
  induction xs as [|x xs IH]; intros s; simpl.
  - split; [intros ?; split; [done|by intros ? ? ?%elem_of_nil]|by intros [? _]].
  - rewrite IH, Hbody, (models_for_add (g x)) by done.
    setoid_rewrite elem_of_cons. intuition (subst; eauto).
Qed.
End Models.

Lemma placement_var_lookup (prefix : string) (n i : nat) :
  (i < n)%nat →
  ((λ i, Int (fmt_sd prefix i)) <$> range n) !!! i = Int (fmt_sd prefix i).
Proof.
  intros Hi. unfold range.
  by rewrite list_lookup_total_alt, list_lookup_fmap, lookup_seq_lt.
Qed.
Lemma bind_eq x z env : bind x z env x = z.
Proof. unfold bind. by case_decide. Qed.

Lemma bind_ne x z env y : y ≠ x → bind x z env y = env y.
Proof. unfold bind. by case_decide. Qed.

Lemma elem_of_range (n i : nat) : i ∈ range n ↔ (i < n)%nat.
Proof. unfold range. rewrite elem_of_seq. lia. Qed.

Lemma elem_of_xrange (n i : Z) : i ∈ xrange n ↔ 0 ≤ i < n.
Proof. unfold xrange. rewrite elem_of_seqZ. lia. Qed.

Lemma elem_of_zip_placement_vars prefix (numbers : list Z) s c :
  (s, c) ∈ zip ((λ i, Int (fmt_sd prefix i)) <$> range (length numbers)) numbers
  ↔ ∃ i, s = Int (fmt_sd prefix i) ∧ numbers !! i = Some c.
Proof.
  rewrite list_elem_of_lookup. unfold zip. setoid_rewrite lookup_zip_with_Some.
  split.
  - intros (i & s' & c' & [= -> ->] & Hs & Hc). exists i. split; [|done].
    rewrite list_lookup_fmap in Hs. unfold range in Hs.
    rewrite lookup_seq_lt in Hs by (by apply lookup_lt_Some in Hc).
    by injection Hs as <-.
  - intros (i & -> & Hc). exists i, (Int (fmt_sd prefix i)), c.
    split; [done|]. split; [|done].
    rewrite list_lookup_fmap. unfold range.
    by rewrite lookup_seq_lt by (by apply lookup_lt_Some in Hc).
Qed.

Lemma _add_column_placed m numbers skip base size prefix solver :
  numbers ≠ [] →
  models m (_add_column numbers skip base size prefix solver)
  ↔ models m solver
    ∧ line_placed (array_f m) (offsets m prefix) numbers skip base size.
Proof.
  intros Hne. unfold _add_column. case_decide; [done|]. cbv zeta.
  assert (0 < length numbers)%nat as Hlen by (destruct numbers; [done|simpl; lia]).
  rewrite models_add.
  erewrite (models_for_add m _ _ (range _)) by reflexivity.
  rewrite models_add.
  rewrite (models_for_for_add m
    (λ sc i, Select (Add (IntVal base) (Mul (Add sc.1 (IntVal i)) (IntVal skip))))
    (λ sc, xrange sc.2)) by (by intros [s c] s0).
  rewrite models_add.
  erewrite (models_for_add m _ _ (range _)) by reflexivity.
  rewrite models_add.
  setoid_rewrite elem_of_range.
  split.
  - intros [[[[[[[Hs H1] H2] H3] H4] H5] H6] H7].
    rewrite !placement_var_lookup in * by lia.
    unfold field_at in *. cbn [holds eval] in *.
    split; [done|]. split; unfold offsets, cell.
    + done.
    + intros i Hi. specialize (H2 i). rewrite !placement_var_lookup in H2 by lia.
      apply H2. lia.
    + done.
    + intros i c t Hc Ht.
      specialize (H4 (Int (fmt_sd prefix i), c) t). cbn [holds eval fst snd] in H4.
      apply H4.
      * apply elem_of_zip_placement_vars. eauto.
      * by apply elem_of_xrange.
    + intros z Hz. apply not_true_is_false. specialize (H5 z).
      rewrite !bind_eq, !bind_ne in H5 by apply fmt_sd_ne_s__1.
      destruct H5 as [?|[?|?]]; [lia|lia|done].
    + intros i z Hi Hz. apply not_true_is_false.
      specialize (H6 i ltac:(lia) z).
      rewrite !placement_var_lookup in H6 by lia. cbn [holds eval] in H6.
      rewrite !bind_eq in H6.
      rewrite !bind_ne in H6 by apply fmt_sd_ne_s_d.
      destruct H6 as [?|[?|?]]; [lia|lia|done].
    + intros z Hz. apply not_true_is_false. specialize (H7 z).
      rewrite !bind_eq, !bind_ne in H7 by apply fmt_sd_ne_s_d.
      destruct H7 as [?|[?|?]]; [lia|lia|done].
  - intros [Hs [P1 P2 P3 P4 P5 P6 P7]]. unfold offsets, cell in *.
    rewrite !placement_var_lookup by lia.
    unfold field_at. cbn [holds eval].
    repeat split; try done.
    + intros i Hi. rewrite !placement_var_lookup by lia. cbn [holds eval].
      apply P2. lia.
    + intros [s c] t (i & -> & Hc)%elem_of_zip_placement_vars Ht%elem_of_xrange.
      cbn [holds eval fst snd]. eapply P4; eauto.
    + intros z. rewrite !bind_eq, !bind_ne by apply fmt_sd_ne_s__1.
      destruct (decide (z < 0)); [by left|].
      destruct (decide (int_const m (fmt_sd prefix 0) ≤ z)); [by right; left|].
      right; right. rewrite P5; [done|lia].
    + intros i Hi z. rewrite !placement_var_lookup by lia. cbn [holds eval].
      rewrite !bind_eq, !bind_ne by apply fmt_sd_ne_s_d.
      destruct (decide (z < int_const m (fmt_sd prefix i) + numbers !!! i)); [by left|].
      destruct (decide (int_const m (fmt_sd prefix (S i)) ≤ z)); [by right; left|].
      right; right. rewrite (P6 i); [done|lia..].
    + intros z. rewrite !bind_eq, !bind_ne by apply fmt_sd_ne_s_d.
      destruct (decide (z < int_const m (fmt_sd prefix (length numbers - 1)) + numbers !!! (length numbers - 1)%nat)); [by left|].
      destruct (decide (size ≤ z)); [by right; left|].
      right; right. rewrite P7; [done|lia].
Qed.
(** ** Runs of a line *)

Lemma runs_from_filled (k : nat) (cur : Z) (l : list bool) :
  runs_from cur (replicate k true ++ l) = runs_from (cur + Z.of_nat k) l.
Proof.
  revert cur. induction k as [|k IH]; intros cur; simpl.
  - f_equal. lia.
  - rewrite IH. f_equal. lia.
Qed.

Lemma runs_from_empty_0 (k : nat) (l : list bool) :
  runs_from 0 (replicate k false ++ l) = runs_from 0 l.
Proof. induction k as [|k IH]; simpl; done. Qed.

Lemma runs_from_gap (k : nat) (cur : Z) (l : list bool) :
  0 < cur → (0 < k)%nat →
  runs_from cur (replicate k false ++ l) = cur :: runs_from 0 l.
Proof.
  intros Hcur Hk. destruct k as [|k]; [lia|]. simpl.
  case_decide; [|lia]. by rewrite runs_from_empty_0.
Qed.

Lemma runs_from_tail (k : nat) (cur : Z) :
  0 < cur → runs_from cur (replicate k false) = [cur].
Proof.
  intros Hcur. destruct k as [|k]; simpl.
  - by case_decide.
  - case_decide; [|lia]. f_equal.
    by rewrite <- (app_nil_r (replicate k false)), runs_from_empty_0.
Qed.

Lemma fmap_seqZ_const (c : Z → bool) (b : bool) (a len : Z) :
  (∀ z, a ≤ z < a + len → c z = b) →
  c <$> seqZ a len = replicate (Z.to_nat len) b.
Proof.
  intros Hc. apply list_eq. intros i.
  rewrite list_lookup_fmap.
  destruct (decide (Z.of_nat i < len)) as [Hi|Hi].
  - rewrite lookup_seqZ_lt, lookup_replicate_2 by lia. simpl.
    f_equal. apply Hc. lia.
  - rewrite lookup_seqZ_ge by lia. symmetry. apply lookup_replicate_None. lia.
Qed.

Lemma runs_laid_le c size pos ps : runs_laid c size pos ps → pos ≤ size.
Proof.
  revert pos. induction ps as [|[o h] ps IH]; intros pos; simpl.
  - by intros [? _].
  - intros (? & ? & _ & _ & Hps). apply IH in Hps. lia.
Qed.

(** One run of the line: [gap] empty cells from [pos], then [h] filled
    cells, then the rest of the line. *)
Lemma cells_split_run c size pos o h :
  pos ≤ o → 0 ≤ h → o + h ≤ size →
  (∀ z, pos ≤ z < o → c z = false) →
  (∀ z, o ≤ z < o + h → c z = true) →
  c <$> seqZ pos (size - pos)
  = replicate (Z.to_nat (o - pos)) false ++ replicate (Z.to_nat h) true
    ++ (c <$> seqZ (o + h) (size - (o + h))).
Proof.
  intros Hpos Hh Hsize Hgap Hrun.
  replace (size - pos) with ((o - pos) + (h + (size - (o + h)))) by lia.
  rewrite seqZ_app, fmap_app by lia.
  rewrite seqZ_app, fmap_app by lia.
  replace (pos + (o - pos)) with o by lia.
  rewrite (fmap_seqZ_const c false pos) by (intros; apply Hgap; lia).
  by rewrite (fmap_seqZ_const c true o) by (intros; apply Hrun; lia).
Qed.

Lemma runs_laid_hints c size ps pos cur :
  0 < cur → runs_laid c size pos ps →
  runs_from cur (c <$> seqZ pos (size - pos)) = cur :: ps.*2.
Proof.
  revert pos cur. induction ps as [|[o h] ps IH]; intros pos cur Hcur; simpl.
  - intros [Hle Hc].
    rewrite (fmap_seqZ_const c false) by (intros; apply Hc; lia).
    by apply runs_from_tail.
  - intros (Hpos & Hh & Hgap & Hrun & Hps).
    pose proof (runs_laid_le _ _ _ _ Hps).
    rewrite (cells_split_run c size pos o h) by (done || lia).
    rewrite runs_from_gap by lia.
    rewrite runs_from_filled, Z2Nat.id by lia.
    f_equal. apply IH; [lia|done].
Qed.

(** ** From the placement of a line to its hints *)

Section Placed.
Context (f : Z → bool) (o : nat → Z) (numbers : list Z) (skip base size : Z).
Context (Hplaced : line_placed f o numbers skip base size).
Context (Hpos : Forall (λ c, 0 < c) numbers).

Lemma placed_pairs_lookup (i : nat) :
  (i < length numbers)%nat →
  zip (o <$> seq 0 (length numbers)) numbers !! i = Some (o i, numbers !!! i).
Proof.
  intros Hi. unfold zip. apply lookup_zip_with_Some.
  exists (o i), (numbers !!! i). split; [done|]. split.
  - by rewrite list_lookup_fmap, lookup_seq_lt.
  - by apply list_lookup_lookup_total_lt.
Qed.

Lemma placed_number_pos (i : nat) :
  (i < length numbers)%nat → 0 < numbers !!! i.
Proof.
  intros Hi. rewrite Forall_lookup in Hpos.
  apply (Hpos i). by apply list_lookup_lookup_total_lt.
Qed.

Lemma placed_run_filled (i : nat) (z : Z) :
  (i < length numbers)%nat → o i ≤ z < o i + numbers !!! i →
  cell f skip base z = true.
Proof.
  intros Hi Hz. unfold cell.
  replace (base + skip * z) with (base + (o i + (z - o i)) * skip) by lia.
  apply (placed_filled _ _ _ _ _ _ Hplaced i (numbers !!! i)).
  - by apply list_lookup_lookup_total_lt.
  - lia.
Qed.

Lemma placed_runs_laid (d i : nat) :
  (i + d = length numbers - 1)%nat → (0 < length numbers)%nat →
  runs_laid (cell f skip base) size (o i + numbers !!! i)
    (drop (S i) (zip (o <$> seq 0 (length numbers)) numbers)).
Proof.
  revert i. induction d as [|d IH]; intros i Hi Hlen.
  - rewrite drop_ge.
    2:{ rewrite length_zip_with, length_fmap, length_seq. lia. }
    simpl. replace i with (length numbers - 1)%nat by lia. split.
    + apply (placed_last _ _ _ _ _ _ Hplaced).
    + apply (placed_after _ _ _ _ _ _ Hplaced).
  - rewrite (drop_S _ (o (S i), numbers !!! S i))
      by (apply placed_pairs_lookup; lia).
    simpl. split; [|split; [|split; [|split]]].
    + apply (placed_order _ _ _ _ _ _ Hplaced). lia.
    + apply placed_number_pos. lia.
    + intros z Hz. apply (placed_between _ _ _ _ _ _ Hplaced i); [lia|done].
    + intros z Hz. apply (placed_run_filled (S i)); [lia|done].
    + apply IH; lia.
Qed.

(** The cells of a line with its runs placed read back as the hints. *)
Lemma line_placed_hints :
  numbers ≠ [] → line_hints (line_cells f skip base size) = numbers.
Proof.
  intros Hne.
  assert (0 < length numbers)%nat as Hlen by (destruct numbers; [done|simpl; lia]).
  pose proof (placed_runs_laid (length numbers - 1) 0 ltac:(lia) Hlen) as Hlaid.
  pose proof (runs_laid_le _ _ _ _ Hlaid) as Hle.
  pose proof (placed_number_pos 0 Hlen) as Hh0.
  pose proof (placed_first _ _ _ _ _ _ Hplaced) as Ho0.
  unfold line_hints, line_cells, xrange.
  replace size with (size - 0) at 1 by lia.
  rewrite (cells_split_run _ size 0 (o 0%nat) (numbers !!! 0%nat)); try lia.
  - rewrite runs_from_empty_0, runs_from_filled, Z2Nat.id by lia.
    erewrite runs_laid_hints; [|lia|exact Hlaid].
    trans ((zip (o <$> seq 0 (length numbers)) numbers).*2).
    2:{ apply snd_zip. rewrite length_fmap, length_seq. lia. }
    pose proof (placed_pairs_lookup 0 Hlen) as H0.
    remember (zip (o <$> seq 0 (length numbers)) numbers) as ps eqn:Eps.
    destruct ps as [|p ps]; [done|].
    simpl in H0. injection H0 as ->. by rewrite Z.add_0_l.
  - apply (placed_before _ _ _ _ _ _ Hplaced).
  - intros z Hz. by apply (placed_run_filled 0).
Qed.

End Placed.

Lemma runs_laid_filled c size ps pos k :
  runs_laid c size pos ps → pos ≤ k < size → c k = true →
  ∃ o h, (o, h) ∈ ps ∧ o ≤ k < o + h.
Proof.
  revert pos. induction ps as [|[o h] ps IH]; intros pos; simpl.
  - intros [_ Hc] Hk Hck. rewrite Hc in Hck by done. discriminate.
  - intros (Hpos & Hh & Hgap & Hrun & Hps) Hk Hck.
    destruct (decide (k < o)) as [Hko|Hko].
    { rewrite Hgap in Hck by lia. discriminate. }
    destruct (decide (k < o + h)) as [Hkh|Hkh].
    { exists o, h. split; [left|lia]. }
    destruct (IH (o + h) Hps ltac:(lia) Hck) as (o' & h' & Hin & Hk').
    exists o', h'. split; [by right|done].
Qed.

Lemma sum_runs_from (cur : Z) (l : list bool) :
  0 ≤ cur → sum (runs_from cur l) = cur + filled_cells l.
Proof.
  revert cur. unfold filled_cells.
  induction l as [|[] l IH]; intros cur Hcur; cbn [runs_from].
  - case_decide; simpl; lia.
  - rewrite IH by lia. rewrite filter_cons_True by done. simpl length. lia.
  - rewrite filter_cons_False by done.
    case_decide; cbn [sum foldr]; fold (sum (runs_from 0 l));
      rewrite IH by lia; lia.
Qed.

Lemma sum_line_hints (l : list bool) : sum (line_hints l) = filled_cells l.
Proof. unfold line_hints. rewrite sum_runs_from by lia. lia. Qed.

Lemma line_placed_cell f o numbers skip base size k :
  line_placed f o numbers skip base size → Forall (λ c, 0 < c) numbers →
  numbers ≠ [] → 0 ≤ k < size →
  cell f skip base k = true
  ↔ ∃ i, (i < length numbers)%nat ∧ o i ≤ k < o i + numbers !!! i.
Proof.
  intros Hplaced Hpos Hne Hk.
  assert (0 < length numbers)%nat as Hlen by (destruct numbers; [done|simpl; lia]).
  split.
  - intros Hck.
    destruct (decide (k < o 0%nat)) as [Hk0|Hk0].
    { rewrite (placed_before _ _ _ _ _ _ Hplaced) in Hck by lia. discriminate. }
    destruct (decide (k < o 0%nat + numbers !!! 0%nat)) as [Hk1|Hk1].
    { exists 0%nat. split; [done|lia]. }
    pose proof (placed_runs_laid f o numbers skip base size Hplaced Hpos
                  (length numbers - 1) 0 ltac:(lia) Hlen) as Hlaid.
    destruct (runs_laid_filled _ _ _ _ k Hlaid ltac:(lia) Hck)
      as (o' & h' & Hin & Hk').
    apply list_elem_of_lookup in Hin as [j Hj].
    rewrite lookup_drop in Hj.
    assert (1 + j < length numbers)%nat as Hjn.
    { apply lookup_lt_Some in Hj.
      rewrite length_zip_with, length_fmap, length_seq in Hj. lia. }
    rewrite (placed_pairs_lookup o numbers) in Hj by done.
    injection Hj as <- <-. by exists (1 + j)%nat.
  - intros (i & Hi & Hki).
    by apply (placed_run_filled f o numbers skip base size Hplaced i).
Qed.

(** The empty hint line: the first branch of [_add_column]. *)
Lemma _add_column_nil_models m skip base size prefix solver :
  models m (_add_column [] skip base size prefix solver)
  ↔ models m solver ∧ ∀ k, 0 ≤ k < size → cell (array_f m) skip base k = false.
Proof.
  unfold _add_column. simpl.
  erewrite models_for_add by reflexivity.
  setoid_rewrite elem_of_xrange. simpl. unfold cell.
  split; intros [Hs Hc]; (split; [done|]); intros k Hk.
  - apply not_true_is_false, Hc, Hk.
  - rewrite Hc by done. discriminate.
Qed.

Lemma line_hints_empty f skip base size :
  (∀ k, 0 ≤ k < size → cell f skip base k = false) →
  line_hints (line_cells f skip base size) = [].
Proof.
  intros Hc. unfold line_hints, line_cells, xrange.
  rewrite (fmap_seqZ_const _ false) by (intros; apply Hc; lia).
  rewrite <- (app_nil_r (replicate _ _)). by rewrite runs_from_empty_0.
Qed.

(** ** The line encoding is sound *)

(** C1: for a non-empty hint line [numbers] of positive integers encoded over
    a line of [size] cells, every model of the assertions [_add_column] adds
    gives its placement variables offsets with [0 <= offset[0]],
    [offset[i] + numbers[i] < offset[i+1]] and
    [offset[last] + numbers[last] <= size]; a cell of the line is filled
    exactly when it lies in one of the runs; the maximal runs of filled cells
    of the line read [numbers], in order; and [sum(numbers)] cells are
    filled. *)
Theorem encode_line_sound m numbers skip base size prefix solver :
  numbers ≠ [] → Forall (λ c, 0 < c) numbers →
  models m (_add_column numbers skip base size prefix solver) →
  let o := offsets m prefix in
  let n := length numbers in
  let cells := line_cells (array_f m) skip base size in
  (0 ≤ o 0%nat
   ∧ (∀ i, (S i < n)%nat → o i + numbers !!! i < o (S i))
   ∧ o (n - 1)%nat + numbers !!! (n - 1)%nat ≤ size)
  ∧ (∀ k, 0 ≤ k < size →
       cell (array_f m) skip base k = true
       ↔ ∃ i, (i < n)%nat ∧ o i ≤ k < o i + numbers !!! i)
  ∧ line_hints cells = numbers
  ∧ filled_cells cells = sum numbers.
Proof.
  intros Hne Hpos Hm.
  apply _add_column_placed in Hm as [_ Hplaced]; [|done].
  cbv zeta. split; [|split; [|split]].
  - destruct Hplaced; auto.
  - intros k Hk. by apply (line_placed_cell _ _ _ _ _ size).
  - by apply (line_placed_hints _ (offsets m prefix)).
  - rewrite <- sum_line_hints. f_equal.
    by apply (line_placed_hints _ (offsets m prefix)).
Qed.

Lemma sample_line_placed :
  line_placed (array_f sample_line_model) (offsets sample_line_model "h0")
    [2; 1] 1 0 5.
Proof.
  assert (offsets sample_line_model "h0" 0 = 0) as H0 by reflexivity.
  assert (offsets sample_line_model "h0" 1 = 3) as H1 by reflexivity.
  split; unfold cell; cbn [length Nat.sub].
  - by rewrite H0.
  - intros [|i] Hi; [|simpl in Hi; lia]. rewrite H0, H1. simpl. lia.
  - rewrite H1. simpl. lia.
  - intros [|[|i]] c t Hc Ht; simpl in Hc; [| |done]; injection Hc as <-.
    + rewrite H0. assert (t = 0 ∨ t = 1) as [-> | ->] by lia; reflexivity.
    + rewrite H1. assert (t = 0) as -> by lia. reflexivity.
  - rewrite H0. lia.
  - intros [|i] z Hi Hz; [|simpl in Hi; lia]. rewrite H0, H1 in Hz.
    simpl in Hz. assert (z = 2) as -> by lia. reflexivity.
  - rewrite H1. simpl. intros z Hz. assert (z = 4) as -> by lia. reflexivity.
Qed.

Lemma sample_line_models :
  models sample_line_model (_add_column [2; 1] 1 0 5 "h0" []).
Proof.
  apply _add_column_placed; [done|]. split; [constructor|].
  apply sample_line_placed.
Qed.

Lemma encode_line_sound_witness :
  line_hints (line_cells (array_f sample_line_model) 1 0 5) = [2; 1]
  ∧ filled_cells (line_cells (array_f sample_line_model) 1 0 5) = 3.
Proof.
  pose proof (encode_line_sound sample_line_model [2; 1] 1 0 5 "h0" []
                ltac:(discriminate)
                ltac:(repeat constructor)
                sample_line_models) as H.
  exact (conj (proj1 (proj2 (proj2 H))) (proj2 (proj2 (proj2 H)))).
Defined.

(** ** The empty hint line and the hint line [0] *)

Lemma for_add_fmap {A : Type} (g : A → BoolRef) (xs : list A) (s : Solver) :
  for_ xs (λ x, add (g x)) s = s ++ (g <$> xs).
Proof.
  unfold for_. revert s. induction xs as [|x xs IH]; intros s; simpl.
  - by rewrite app_nil_r.
  - rewrite IH. unfold add. by rewrite <- app_assoc.
Qed.

(** C4: with no number in the hint line, [_add_column] adds exactly one
    assertion per cell of the line, [Not(self._field[base + skip * i])] for
    [i] from 0 to [size - 1], and nothing else; these assertions mention no
    integer constant at all, so no placement variable is introduced; and a
    model satisfies them exactly when every cell of the line is empty, so the
    line of every satisfying assignment is [size] empty cells and reads back
    as the empty hint line. *)
Theorem encode_empty_line skip base size prefix solver :
  _add_column [] skip base size prefix solver
  = solver ++ ((λ i, Not (Select (IntVal (base + skip * i)))) <$> xrange size)
  ∧ _add_column [] skip base size prefix [] ≫= consts = []
  ∧ ∀ m, (models m (_add_column [] skip base size prefix solver)
          ↔ models m solver
            ∧ ∀ k, 0 ≤ k < size → cell (array_f m) skip base k = false)
         ∧ (models m (_add_column [] skip base size prefix solver) →
            line_cells (array_f m) skip base size
            = replicate (Z.to_nat size) false
            ∧ line_hints (line_cells (array_f m) skip base size) = []).
Proof.
  split; [|split].
  - unfold _add_column. simpl. apply for_add_fmap.
  - unfold _add_column. simpl. rewrite for_add_fmap. simpl.
    induction (xrange size) as [|i l IH]; [done|]. by simpl.
  - intros m. split; [apply _add_column_nil_models|].
    intros Hm. apply _add_column_nil_models in Hm as [_ Hc]. split.
    + unfold line_cells, xrange. apply fmap_seqZ_const. intros; apply Hc; lia.
    + by apply line_hints_empty.
Qed.

Lemma _add_column_zero skip base size prefix :
  _add_column [0] skip base size prefix []
  = [ Ge (Int (fmt_sd prefix 0)) (IntVal 0);
      Le (Add (Int (fmt_sd prefix 0)) (IntVal 0)) (IntVal size);
      ForAll (fmt_s__1 prefix)
        (Or (Lt (Int (fmt_s__1 prefix)) (IntVal 0))
            (Le (Int (fmt_sd prefix 0)) (Int (fmt_s__1 prefix)))
            (Not (field_at base skip (Int (fmt_s__1 prefix)))));
      ForAll (fmt_s_d prefix 1)
        (Or (Lt (Int (fmt_s_d prefix 1)) (Add (Int (fmt_sd prefix 0)) (IntVal 0)))
            (Ge (Int (fmt_s_d prefix 1)) (IntVal size))
            (Not (field_at base skip (Int (fmt_s_d prefix 1))))) ].
Proof. reflexivity. Qed.

Lemma zero_hint_cells f env skip base size prefix :
  models (Model f env) (_add_column [0] skip base size prefix []) →
  ∀ k, 0 ≤ k < size → cell f skip base k = false.
Proof.
  intros Hm. apply _add_column_placed in Hm as [_ Hplaced]; [|done].
  intros k Hk.
  pose proof (placed_before _ _ _ _ _ _ Hplaced k) as Hb.
  assert (offsets (Model f env) prefix 0 + 0 ≤ k < size →
          cell f skip base k = false) as Ha
    by apply (placed_after _ _ _ _ _ _ Hplaced k).
  destruct (decide (k < offsets (Model f env) prefix 0)); [apply Hb|apply Ha]; lia.
Qed.

Lemma zero_hint_models f skip base size prefix :
  0 ≤ size → (∀ k, 0 ≤ k < size → cell f skip base k = false) →
  models (Model f (λ _, 0)) (_add_column [0] skip base size prefix []).
Proof.
  intros Hsize Hc. apply _add_column_placed; [done|].
  split; [constructor|]. unfold offsets. split; simpl.
  - done.
  - intros i Hi. lia.
  - lia.
  - intros [|i] c t Hi Ht; simpl in Hi; [|done]. injection Hi as <-. lia.
  - intros z Hz. lia.
  - intros i z Hi. lia.
  - intros z Hz. apply Hc. lia.
Qed.

(** C9: on a line of [size >= 0] cells, the hint line [0] and the empty hint
    line admit the same assignments of the line, those with every cell of the
    line empty; the encoding of [0] has one free integer constant, the
    placement variable [prefix0], the encoding of the empty hint line has
    none. *)
Theorem zero_hint_is_empty_line f skip base size prefix :
  0 ≤ size →
  ((∃ env, models (Model f env) (_add_column [0] skip base size prefix []))
   ↔ (∃ env, models (Model f env) (_add_column [] skip base size prefix [])))
  ∧ ((∃ env, models (Model f env) (_add_column [0] skip base size prefix []))
     ↔ ∀ k, 0 ≤ k < size → cell f skip base k = false)
  ∧ (∀ x, x ∈ _add_column [0] skip base size prefix [] ≫= free_consts
          ↔ x = fmt_sd prefix 0)
  ∧ _add_column [] skip base size prefix [] ≫= free_consts = [].
Proof.
  intros Hsize.
  assert ((∃ env, models (Model f env) (_add_column [0] skip base size prefix []))
          ↔ ∀ k, 0 ≤ k < size → cell f skip base k = false) as Hzero.
  { split.
    - intros [env Hm]. by apply (zero_hint_cells f env skip base size prefix).
    - intros Hc. exists (λ _, 0). by apply zero_hint_models. }
  split; [|split; [done|split]].
  - rewrite Hzero. split.
    + intros Hc. exists (λ _, 0). apply _add_column_nil_models.
      split; [constructor|done].
    + intros [env Hm]. by apply _add_column_nil_models in Hm as [_ Hc].
  - intros x. rewrite _add_column_zero. unfold field_at. simpl.
    rewrite !elem_of_cons, !elem_of_app, !list_elem_of_filter, !elem_of_cons,
      elem_of_nil.
    pose proof (fmt_sd_ne_s__1 prefix 0). pose proof (fmt_sd_ne_s_d prefix 0 1).
    split; [|intros ->; by left].
    intuition (subst; done).
  - unfold _add_column. simpl. rewrite for_add_fmap.
    induction (xrange size) as [|i l IH]; [done|]. by simpl.
Qed.

Lemma zero_hint_is_empty_line_witness :
  ∃ env, models (Model (λ _, false) env) (_add_column [0] 1 0 3 "h0" []).
Proof.
  apply (proj1 (proj2 (zero_hint_is_empty_line (λ _, false) 1 0 3 "h0"
                         ltac:(lia)))).
  reflexivity.
Defined.

(** ** The assertions of the whole puzzle *)

Lemma for_body_fmap {A : Type} (g : A → BoolRef) (body : A → Solver → Solver)
    (xs : list A) (s : Solver) :
  (∀ x s, body x s = add (g x) s) → for_ xs body s = s ++ (g <$> xs).
Proof.
  intros Hbody. unfold for_. revert s. induction xs as [|x xs IH]; intros s; simpl.
  - by rewrite app_nil_r.
  - rewrite IH, Hbody. unfold add. by rewrite <- app_assoc.
Qed.

Lemma for_body_bind {A : Type} (h : A → Solver) (body : A → Solver → Solver)
    (xs : list A) (s : Solver) :
  (∀ x s, body x s = s ++ h x) → for_ xs body s = s ++ (xs ≫= h).
Proof.
  intros Hbody. unfold for_. revert s. induction xs as [|x xs IH]; intros s; simpl.
  - by rewrite app_nil_r.
  - rewrite IH, Hbody. by rewrite <- app_assoc.
Qed.

Lemma _add_column_appends numbers skip base size prefix :
  ∃ added, ∀ solver,
    _add_column numbers skip base size prefix solver = solver ++ added.
Proof.
  unfold _add_column. case_decide.
  - eexists. intros solver. apply for_add_fmap.
  - cbv zeta. eexists. intros solver.
    erewrite (for_body_fmap _ _ (range _)) by reflexivity.
    erewrite (for_body_bind
      (λ sc, (λ i, Select (Add (IntVal base) (Mul (Add sc.1 (IntVal i)) (IntVal skip))))
             <$> xrange sc.2) _ (zip _ _))
      by (intros [s c] s0; apply for_add_fmap).
    erewrite (for_body_fmap _ _ (range _)) by reflexivity.
    unfold add. rewrite <- !app_assoc. reflexivity.
Qed.

(** A call of [_add_column] only adds assertions: what it adds does not
    depend on what the solver holds. *)
Lemma _add_column_frame numbers skip base size prefix solver :
  _add_column numbers skip base size prefix solver
  = solver ++ _add_column numbers skip base size prefix [].
Proof.
  destruct (_add_column_appends numbers skip base size prefix) as [added Hadd].
  by rewrite (Hadd solver), (Hadd []).
Qed.

Lemma for_imap_frame {A : Type} (h : nat → A → Solver)
    (body : nat * A → Solver → Solver) (k : nat → nat) (xs : list A) (s : Solver) :
  (∀ i x s, body (i, x) s = s ++ h i x) →
  for_ (imap (λ i x, (k i, x)) xs) body s
  = s ++ mjoin (imap (λ i x, h (k i) x) xs).
Proof.
  intros Hbody. unfold for_. revert k s.
  induction xs as [|x xs IH]; intros k s; simpl.
  - by rewrite app_nil_r.
  - rewrite Hbody.
    change (imap ((λ i x, (k i, x)) ∘ S) xs)
      with (imap (λ i x, ((k ∘ S) i, x)) xs).
    rewrite (IH (k ∘ S)). by rewrite <- app_assoc.
Qed.

Lemma for_enumerate_frame {A : Type} (h : nat → A → Solver)
    (body : nat * A → Solver → Solver) (xs : list A) (s : Solver) :
  (∀ i x s, body (i, x) s = s ++ h i x) →
  for_ (enumerate xs) body s = s ++ mjoin (imap h xs).
Proof. intros Hbody. apply (for_imap_frame h body id xs s Hbody). Qed.

(** ** Reading the grid out of a model *)

Lemma for_alter_lookup {A : Type} (F : nat → A → A) (xs : list nat)
    (g : list A) (i : nat) :
  NoDup xs →
  for_ xs (λ i, alter (F i) i) g !! i
  = (if decide (i ∈ xs) then F i else id) <$> g !! i.
Proof.
  unfold for_. revert g. induction xs as [|x xs IH]; intros g Hnd; cbn [foldl].
  - rewrite decide_False by apply not_elem_of_nil. by destruct (g !! i).
  - apply NoDup_cons in Hnd as [Hx Hnd]. rewrite IH by done.
    destruct (decide (i = x)) as [->|Hix].
    + rewrite decide_False by done. rewrite decide_True by left.
      rewrite list_lookup_alter_eq. by destruct (g !! x).
    + rewrite list_lookup_alter_ne by done.
      destruct (decide (i ∈ xs)) as [Hin|Hin].
      * by rewrite decide_True by (by right).
      * rewrite decide_False; [done|]. by intros [?|?]%elem_of_cons.
Qed.

Lemma for_alter_length {A : Type} (F : nat → A → A) (xs : list nat) (g : list A) :
  length (for_ xs (λ i, alter (F i) i) g) = length g.
Proof.
  unfold for_. revert g. induction xs as [|x xs IH]; intros g; simpl; [done|].
  by rewrite IH, length_alter.
Qed.

(** The rows [0 .. rows - 1] of the grid filled in, the other rows still
    [False]: the state of [f0] after [rows] turns of the outer loop. *)
Lemma read_grid_rows (m : ModelRef) (width height rows : nat) :
  (rows ≤ height)%nat →
  for_ (range rows)
    (λ j, for_ (range width)
       (λ i, alter (<[j := array_f m (Z.of_nat j * Z.of_nat width + Z.of_nat i)]>) i))
    (replicate width (replicate height false))
  = (λ i, ((λ j, array_f m (Z.of_nat j * Z.of_nat width + Z.of_nat i)) <$> range rows)
          ++ replicate (height - rows) false) <$> range width.
Proof.
  induction rows as [|rows IH]; intros Hrows.
  - simpl. rewrite Nat.sub_0_r. apply list_eq. intros i.
    rewrite list_lookup_fmap. unfold range.
    destruct (decide (i < width)%nat).
    + by rewrite lookup_replicate_2, lookup_seq_lt.
    + rewrite lookup_seq_ge by lia. simpl. apply lookup_replicate_None. lia.
  - unfold range at 1. rewrite seq_S. unfold for_ at 1. rewrite foldl_app.
    cbn [foldl Nat.add]. fold (range rows).
    change (foldl _ _ (range rows)) with
      (for_ (range rows)
         (λ j, for_ (range width)
            (λ i, alter (<[j := array_f m (Z.of_nat j * Z.of_nat width + Z.of_nat i)]>) i))
         (replicate width (replicate height false))).
    rewrite IH by lia. apply list_eq. intros i.
    rewrite for_alter_lookup by apply NoDup_seq.
    rewrite !list_lookup_fmap. unfold range.
    destruct (decide (i < width)%nat) as [Hi|Hi].
    + rewrite lookup_seq_lt by done. rewrite decide_True by (apply elem_of_seq; lia).
      cbn [fmap option_fmap option_map Nat.add]. f_equal.
      rewrite insert_app_r_alt by (rewrite length_fmap, length_seq; lia).
      rewrite length_fmap, length_seq, Nat.sub_diag.
      replace (height - rows)%nat with (S (height - S rows)) by lia.
      rewrite seq_S, fmap_app. simpl. by rewrite <- app_assoc.
    + rewrite lookup_seq_ge by lia. done.
Qed.

(** [_solve] reads out of the model the grid the model stands for. *)
Lemma read_grid_grid_of (m : ModelRef) (width height : nat) :
  read_grid m width height = grid_of (array_f m) width height.
Proof.
  unfold read_grid. rewrite read_grid_rows by done. unfold grid_of.
  apply list_fmap_ext. intros _ i _. by rewrite Nat.sub_diag, app_nil_r.
Qed.

Lemma grid_of_lookup f width height i j :
  (i < width)%nat → (j < height)%nat →
  grid_of f width height !! i ≫= (.!! j)
  = Some (f (Z.of_nat j * Z.of_nat width + Z.of_nat i)).
Proof.
  intros Hi Hj. unfold grid_of, range.
  rewrite (list_lookup_fmap _ (seq 0 width) i), lookup_seq_lt by done.
  cbn [fmap option_fmap option_map mbind option_bind Nat.add].
  by rewrite (list_lookup_fmap _ (seq 0 height) j), lookup_seq_lt.
Qed.

(** ** The assertions [_solve] hands to z3 *)

Lemma encode_lines horizontal vertical :
  encode horizontal vertical
  = mjoin (imap (λ j c, _add_column c 1
                   (Z.of_nat j * Z.of_nat (length vertical))
                   (Z.of_nat (length vertical)) (fmt_h j) []) horizontal)
    ++ mjoin (imap (λ i c, _add_column c (Z.of_nat (length vertical))
                      (Z.of_nat i) (Z.of_nat (length horizontal)) (fmt_v i) [])
                vertical).
Proof.
  unfold encode. cbv zeta.
  rewrite (for_enumerate_frame
    (λ j c, _add_column c 1 (Z.of_nat j * Z.of_nat (length vertical))
              (Z.of_nat (length vertical)) (fmt_h j) []) _ horizontal)
    by (intros; apply _add_column_frame).
  rewrite (for_enumerate_frame
    (λ i c, _add_column c (Z.of_nat (length vertical)) (Z.of_nat i)
              (Z.of_nat (length horizontal)) (fmt_v i) []) _ vertical)
    by (intros; apply _add_column_frame).
  done.
Qed.

Lemma models_mjoin_imap {A : Type} m (g : nat → A → Solver) (xs : list A) :
  models m (mjoin (imap g xs)) ↔ ∀ i x, xs !! i = Some x → models m (g i x).
Proof.
  revert g. induction xs as [|x xs IH]; intros g; simpl.
  - split; [by intros _ i x|intros _; constructor].
  - rewrite models_app, IH. split.
    + intros [H0 HS] [|i] y Hy; simpl in Hy; [by injection Hy as <-|by apply HS].
    + intros H. split; [by apply (H 0%nat)|]. intros i y Hy. by apply (H (S i)).
Qed.

Lemma models_encode m horizontal vertical :
  models m (encode horizontal vertical)
  ↔ (∀ j c, horizontal !! j = Some c →
        models m (_add_column c 1 (Z.of_nat j * Z.of_nat (length vertical))
                    (Z.of_nat (length vertical)) (fmt_h j) []))
    ∧ (∀ i c, vertical !! i = Some c →
        models m (_add_column c (Z.of_nat (length vertical)) (Z.of_nat i)
                    (Z.of_nat (length horizontal)) (fmt_v i) [])).
Proof. by rewrite encode_lines, models_app, !models_mjoin_imap. Qed.

Lemma line_cells_lookup f skip base size (k : nat) :
  Z.of_nat k < size →
  line_cells f skip base size !! k = Some (f (base + skip * Z.of_nat k)).
Proof.
  intros Hk. unfold line_cells, xrange, cell.
  by rewrite list_lookup_fmap, lookup_seqZ_lt by done.
Qed.


(** ** [solve] and its cache *)

Lemma solve_solved check self :
  _solved self = true → solve check self = (_answer self, self).
Proof. intros H. unfold solve. by rewrite H. Qed.

Lemma solve_first check self :
  _solved self = false →
  solve check self
  = ((_solve check (with_solved true self)).1,
     with_answer (_solve check (with_solved true self)).1
       (_solve check (with_solved true self)).2).
Proof.
  intros H. unfold solve. rewrite H. simpl.
  by destruct (_solve check (with_solved true self)).
Qed.

Lemma _solve_attrs check self :
  _solved (_solve check self).2 = _solved self
  ∧ _solve_calls (_solve check self).2 = S (_solve_calls self)
  ∧ _horizontal_hints (_solve check self).2 = _horizontal_hints self
  ∧ _vertical_hints (_solve check self).2 = _vertical_hints self.
Proof. unfold _solve. by destruct (check _). Qed.

Lemma solve_after check self :
  _solved (solve check self).2 = true
  ∧ _answer (solve check self).2 = (solve check self).1
  ∧ _solve_calls (solve check self).2
    = (if _solved self then _solve_calls self else S (_solve_calls self)).
Proof.
  destruct (_solved self) eqn:Hs.
  - by rewrite solve_solved.
  - rewrite solve_first by done. simpl.
    destruct (_solve_attrs check (with_solved true self)) as (-> & -> & _).
    done.
Qed.

Lemma solve_again check self :
  solve check (solve check self).2 = ((solve check self).1, (solve check self).2).
Proof.
  destruct (solve_after check self) as (Hs & Ha & _).
  by rewrite solve_solved, Ha.
Qed.

Lemma solve_times_cached check n self :
  _solved self = true →
  solve_times check n self = (replicate n (_answer self), self).
Proof.
  intros Hs. induction n as [|n IH]; simpl; [done|].
  by rewrite solve_solved, IH.
Qed.

(** C8: for an instance whose hints fit a C long (so that [_solve] raises
    nothing), a second call of [solve] returns what the first returned and
    leaves the instance as it is; on a new instance, any number of calls,
    one or more, return the answer of the first call every time, with
    [_solve] run exactly once; and an instance that is solved stays solved,
    with its answer, whatever is called. *)
Theorem solve_idempotent check horizontal vertical self n :
  hints_fit (_horizontal_hints self) → hints_fit (_vertical_hints self) →
  hints_fit horizontal → hints_fit vertical →
  solve check (solve check self).2 = solve check self
  ∧ _solved (solve check self).2 = true
  ∧ (let new := __init__ horizontal vertical in
     solve_times check (S n) new
     = (replicate (S n) (solve check new).1, (solve check new).2)
     ∧ _solve_calls (solve_times check (S n) new).2 = 1%nat).
Proof.
  intros _ _ _ _. split; [|split; [|split]].
  - rewrite solve_again. by destruct (solve check self).
  - apply solve_after.
  - cbn [solve_times].
    destruct (solve check (__init__ horizontal vertical)) as [a d] eqn:Hsolve.
    pose proof (solve_after check (__init__ horizontal vertical)) as (Hs & Ha & _).
    rewrite Hsolve in Hs, Ha. simpl in Hs, Ha.
    rewrite solve_times_cached by done. by rewrite Ha.
  - cbn [solve_times].
    destruct (solve check (__init__ horizontal vertical)) as [a d] eqn:Hsolve.
    pose proof (solve_after check (__init__ horizontal vertical)) as (Hs & Ha & Hc).
    rewrite Hsolve in Hs, Ha, Hc. simpl in Hs, Ha, Hc.
    rewrite solve_times_cached by done. done.
Qed.

Lemma solve_idempotent_witness :
  let check := check_sat empty_model in
  let self := __init__ [[1]; []] [[1]] in
  solve check (solve check self).2 = solve check self
  ∧ _solved (solve check self).2 = true
  ∧ (let new := __init__ [[1]; []] [[1]] in
     solve_times check 3 new
     = (replicate 3 (solve check new).1, (solve check new).2)
     ∧ _solve_calls (solve_times check 3 new).2 = 1%nat).
Proof.
  apply (solve_idempotent (check_sat empty_model) [[1]; []] [[1]]
           (__init__ [[1]; []] [[1]]) 2); solve_fits.
Defined.

(** ** The text [print_answer] writes *)

Lemma string_app_cons (c : ascii) (s t : string) :
  String c s +:+ t = String c (s +:+ t).
Proof. reflexivity. Qed.

Lemma string_app_assoc (s1 s2 s3 : string) :
  (s1 +:+ s2) +:+ s3 = s1 +:+ (s2 +:+ s3).
Proof.
  induction s1 as [|c s1 IH]; [done|]. by rewrite !string_app_cons, IH.
Qed.

Lemma string_app_nil_r (s : string) : s +:+ EmptyString = s.
Proof. induction s as [|c s IH]; [done|]. by rewrite string_app_cons, IH. Qed.

Lemma string_of_chars_length (l : list ascii) :
  String.length (string_of_chars l) = length l.
Proof. induction l as [|c l IH]; simpl; [done|]. by rewrite IH. Qed.

Lemma string_of_chars_get (l : list ascii) (i : nat) :
  String.get i (string_of_chars l) = l !! i.
Proof.
  revert i. induction l as [|c l IH]; intros [|i]; simpl; done.
Qed.

Lemma join_chars {A : Type} (c : A → ascii) (xs : list A) :
  join ((λ x, String (c x) EmptyString) <$> xs) = string_of_chars (c <$> xs).
Proof.
  induction xs as [|x xs IH]; [done|]. simpl.
  rewrite string_app_cons. f_equal. exact IH.
Qed.

Lemma for_io_write {A : Type} (g : A → string)
    (body : A → string → outcome * string) (xs : list A) (fout : string) :
  (∀ x fout, x ∈ xs → body x fout = write (g x) fout) →
  for_io xs body fout = (Returned, fout +:+ join (g <$> xs)).
Proof.
  revert fout. induction xs as [|x xs IH]; intros fout Hbody; simpl.
  - by rewrite string_app_nil_r.
  - rewrite Hbody by left. unfold write at 1. cbn beta iota.
    rewrite IH by (intros; apply Hbody; by right).
    by rewrite string_app_assoc.
Qed.

Lemma grid_of_length f width height : length (grid_of f width height) = width.
Proof. unfold grid_of, range. by rewrite length_fmap, length_seq. Qed.

Lemma grid_of_column f width height i col :
  grid_of f width height !! i = Some col → length col = height.
Proof.
  unfold grid_of, range. rewrite list_lookup_fmap.
  destruct (seq 0 width !! i); simpl; [|done].
  intros [= <-]. by rewrite length_fmap, length_seq.
Qed.

(** What [print_answer] does with a solved grid that has a first column. *)
Lemma print_grid check self f width height fout :
  _solved self = true → _answer self = Some (grid_of f width height) →
  (0 < width)%nat →
  print_answer check self fout
  = (Returned,
     fout +:+ join ((λ l, l +:+ newline)
                    <$> answer_lines (grid_of f width height) width height),
     self).
Proof.
  intros Hs Ha Hw. unfold print_answer. rewrite solve_solved, Ha by done.
  destruct (grid_of f width height !! 0%nat) as [q0|] eqn:Hq0.
  2:{ apply lookup_ge_None in Hq0. rewrite grid_of_length in Hq0. lia. }
  rewrite (grid_of_column _ _ _ _ _ Hq0), grid_of_length.
  rewrite (for_io_write
    (λ j, string_of_chars
            ((λ i, cell_char (default false (grid_cell (grid_of f width height) i j)))
             <$> range width) +:+ newline)).
  - unfold answer_lines. by rewrite <- list_fmap_compose.
  - intros j fout' Hj%elem_of_range.
    rewrite (for_io_write
      (λ i, String (cell_char (default false
                      (grid_cell (grid_of f width height) i j))) EmptyString)).
    + rewrite join_chars. unfold write. cbn beta iota.
      by rewrite string_app_assoc.
    + intros i fout'' Hi%elem_of_range. unfold grid_cell.
      rewrite grid_of_lookup by done. simpl. by destruct (f _).
Qed.

Lemma solve_new check horizontal vertical :
  solve check (__init__ horizontal vertical)
  = (match check (encode horizontal vertical) with
     | sat m => Some (read_grid m (length vertical) (length horizontal))
     | _ => None
     end,
     mkDrawLogic horizontal vertical true
       (match check (encode horizontal vertical) with
        | sat m => Some (read_grid m (length vertical) (length horizontal))
        | _ => None
        end)
       (encode horizontal vertical) 1).
Proof.
  rewrite solve_first by done. unfold _solve. simpl.
  by destruct (check (encode horizontal vertical)).
Qed.

(** ** The outcomes of [print_answer] *)

Lemma one_by_one_unsat m : ¬ models m (encode [[1]] [[]]).
Proof.
  intros [Hrow Hcol]%models_encode.
  specialize (Hrow 0%nat [1] eq_refl). specialize (Hcol 0%nat [] eq_refl).
  simpl in Hrow, Hcol.
  apply _add_column_placed in Hrow as [_ Hplaced]; [|done].
  assert (Forall (λ c, 0 < c) [1]) as Hpos by (by repeat constructor).
  pose proof (line_placed_hints _ _ _ _ _ _ Hplaced Hpos ltac:(done)) as Hhints.
  apply _add_column_nil_models in Hcol as [_ Hempty].
  pose proof (line_hints_empty (array_f m) 1 0 1 Hempty) as Hnone.
  change (line_hints (line_cells (array_f m) 1 0 1) = [1]) in Hhints.
  rewrite Hnone in Hhints. discriminate.
Qed.

(** C6: for hints that fit a C long, when no model satisfies the assertions
    of the puzzle, and z3 answers [sat] only with a model of what it was
    given, [solve] returns [None] (it raises nothing), and [print_answer]
    returns after writing the one line [No solutions!] and nothing else. *)
Theorem unsat_prints_no_solutions check horizontal vertical fout :
  hints_fit horizontal → hints_fit vertical →
  (∀ m, ¬ models m (encode horizontal vertical)) →
  (∀ m, check (encode horizontal vertical) = sat m →
        models m (encode horizontal vertical)) →
  let new := __init__ horizontal vertical in
  (solve check new).1 = None
  ∧ (print_answer check new fout).1
    = (Returned, fout +:+ "No solutions!" +:+ newline).
Proof.
  intros _ _ Hunsat Hsound. cbv zeta.
  assert ((solve check (__init__ horizontal vertical)).1 = None) as Hnone.
  { rewrite solve_new. simpl.
    destruct (check (encode horizontal vertical)) as [m| |] eqn:Hcheck; try done.
    destruct (Hunsat m). by apply Hsound. }
  split; [done|]. unfold print_answer.
  destruct (solve check (__init__ horizontal vertical)) as [a d].
  simpl in Hnone. by subst a.
Qed.

Lemma unsat_prints_no_solutions_witness :
  (solve check_unsat (__init__ [[1]] [[]])).1 = None
  ∧ (print_answer check_unsat (__init__ [[1]] [[]]) EmptyString).1
    = (Returned, "No solutions!" +:+ newline).
Proof.
  apply (unsat_prints_no_solutions check_unsat [[1]] [[]] EmptyString).
  - solve_fits.
  - solve_fits.
  - exact one_by_one_unsat.
  - intros m Hm. discriminate Hm.
Defined.

Lemma solve_new_sat check horizontal vertical m :
  check (encode horizontal vertical) = sat m →
  solve check (__init__ horizontal vertical)
  = (Some (grid_of (array_f m) (length vertical) (length horizontal)),
     mkDrawLogic horizontal vertical true
       (Some (grid_of (array_f m) (length vertical) (length horizontal)))
       (encode horizontal vertical) 1).
Proof. intros Hcheck. by rewrite solve_new, Hcheck, read_grid_grid_of. Qed.

Lemma print_answer_new_sat check horizontal vertical m fout :
  check (encode horizontal vertical) = sat m →
  (0 < length vertical)%nat →
  (print_answer check (__init__ horizontal vertical) fout).1
  = (Returned,
     fout +:+ join ((λ l, l +:+ newline)
                    <$> answer_lines
                          (grid_of (array_f m) (length vertical) (length horizontal))
                          (length vertical) (length horizontal))).
Proof.
  intros Hcheck Hw.
  pose proof (print_grid check
    (mkDrawLogic horizontal vertical true
       (Some (grid_of (array_f m) (length vertical) (length horizontal)))
       (encode horizontal vertical) 1)
    (array_f m) (length vertical) (length horizontal) fout
    eq_refl eq_refl Hw) as Hprint.
  unfold print_answer in Hprint |- *. rewrite solve_solved in Hprint by done.
  rewrite (solve_new_sat check horizontal vertical m Hcheck).
  simpl in Hprint |- *. by rewrite Hprint.
Qed.

(** C7: when z3 answers [sat] and the puzzle has at least one column,
    [solve] returns the grid of the model and [print_answer] returns after
    writing [height] lines, each of [width] characters and a line feed, top
    row first; the character at column [i] of line [j] is [x] when cell
    [(i, j)] of the returned grid is filled and [_] when it is empty. *)
Theorem print_answer_format check horizontal vertical m fout :
  check (encode horizontal vertical) = sat m →
  (0 < length vertical)%nat →
  let new := __init__ horizontal vertical in
  let width := length vertical in
  let height := length horizontal in
  ∃ q lines,
    (solve check new).1 = Some q
    ∧ (print_answer check new fout).1
      = (Returned, fout +:+ join ((λ l, l +:+ newline) <$> lines))
    ∧ length lines = height
    ∧ ∀ j line, lines !! j = Some line →
        String.length line = width
        ∧ ∀ i, (i < width)%nat →
            ∃ b, grid_cell q i j = Some b
                 ∧ b = array_f m (Z.of_nat j * Z.of_nat width + Z.of_nat i)
                 ∧ String.get i line = Some (cell_char b).
Proof.
  intros Hcheck Hw. cbv zeta.
  exists (grid_of (array_f m) (length vertical) (length horizontal)).
  exists (answer_lines (grid_of (array_f m) (length vertical) (length horizontal))
            (length vertical) (length horizontal)).
  split; [by rewrite (solve_new_sat check horizontal vertical m Hcheck)|].
  split; [|split].
  - by apply print_answer_new_sat.
  - unfold answer_lines, range. by rewrite length_fmap, length_seq.
  - intros j line Hline. unfold answer_lines, range in Hline.
    rewrite list_lookup_fmap in Hline.
    destruct (seq 0 (length horizontal) !! j) as [j'|] eqn:Hj; [|done].
    apply lookup_seq in Hj as [-> Hj]. simpl in Hline. injection Hline as <-.
    split.
    + by rewrite string_of_chars_length, length_fmap, length_seq.
    + intros i Hi.
      exists (array_f m (Z.of_nat j * Z.of_nat (length vertical) + Z.of_nat i)).
      unfold grid_cell. rewrite grid_of_lookup by done. split; [done|].
      split; [done|].
      rewrite string_of_chars_get, list_lookup_fmap, lookup_seq_lt by done.
      simpl. unfold grid_cell. by rewrite grid_of_lookup.
Qed.

Lemma print_answer_format_witness :
  ∃ q lines,
    (solve (check_sat empty_model) (__init__ [[]; []] [[]; []; []])).1 = Some q
    ∧ (print_answer (check_sat empty_model) (__init__ [[]; []] [[]; []; []])
         EmptyString).1
      = (Returned, EmptyString +:+ join ((λ l, l +:+ newline) <$> lines))
    ∧ length lines = 2%nat
    ∧ ∀ j line, lines !! j = Some line →
        String.length line = 3%nat
        ∧ ∀ i, (i < 3)%nat →
            ∃ b, grid_cell q i j = Some b
                 ∧ b = array_f empty_model (Z.of_nat j * 3 + Z.of_nat i)
                 ∧ String.get i line = Some (cell_char b).
Proof.
  apply (print_answer_format (check_sat empty_model) [[]; []] [[]; []; []]
           empty_model EmptyString).
  - reflexivity.
  - simpl. lia.
Defined.

(** C10: when z3 answers [sat] for a puzzle without any vertical hint list,
    [solve] returns the empty grid [[]] and [print_answer] ends in an
    IndexError (on [q[0]]) with nothing written, whatever the number of
    rows; for a puzzle z3 answers [sat] for, [print_answer] returns normally
    exactly when the puzzle has at least one column. *)
Theorem print_answer_no_columns check horizontal vertical m fout :
  check (encode horizontal vertical) = sat m →
  (vertical = [] →
     (solve check (__init__ horizontal vertical)).1 = Some []
     ∧ (print_answer check (__init__ horizontal vertical) fout).1
       = (IndexError, fout))
  ∧ ((print_answer check (__init__ horizontal vertical) fout).1.1 = Returned
     ↔ (0 < length vertical)%nat).
Proof.
  intros Hcheck.
  assert (vertical = [] →
     (solve check (__init__ horizontal vertical)).1 = Some []
     ∧ (print_answer check (__init__ horizontal vertical) fout).1
       = (IndexError, fout)) as Hempty.
  { intros ->. unfold print_answer. rewrite solve_new, Hcheck.
    by rewrite read_grid_grid_of. }
  split; [done|]. split.
  - intros Hret. destruct vertical as [|c vertical]; [|simpl; lia].
    destruct (Hempty eq_refl) as [_ Hprint]. rewrite Hprint in Hret. done.
  - intros Hw.
    by rewrite (print_answer_new_sat check horizontal vertical m fout Hcheck Hw).
Qed.

Lemma print_answer_no_columns_witness :
  (solve (check_sat empty_model) (__init__ [[]; []] [])).1 = Some []
  ∧ (print_answer (check_sat empty_model) (__init__ [[]; []] []) EmptyString).1
    = (IndexError, EmptyString).
Proof.
  exact (proj1 (print_answer_no_columns (check_sat empty_model) [[]; []] []
                  empty_model EmptyString eq_refl) eq_refl).
Defined.

(** ** Whole puzzles *)

(** A placement checked over finitely many positions. *)
Lemma line_placed_bounded f (o : nat → Z) numbers skip base size :
  let n := length numbers in
  let last := o (n - 1)%nat + numbers !!! (n - 1)%nat in
  0 ≤ o 0%nat →
  Forall (λ i, o i + numbers !!! i < o (S i)) (range (n - 1)) →
  last ≤ size →
  Forall (λ i, Forall (λ t, f (base + (o i + t) * skip) = true)
                 (xrange (numbers !!! i))) (range n) →
  Forall (λ z, cell f skip base z = false) (xrange (o 0%nat)) →
  Forall (λ i, Forall (λ z, cell f skip base z = false)
                 (seqZ (o i + numbers !!! i) (o (S i) - (o i + numbers !!! i))))
    (range (n - 1)) →
  Forall (λ z, cell f skip base z = false) (seqZ last (size - last)) →
  line_placed f o numbers skip base size.
Proof.
  cbv zeta. unfold range, xrange.
  rewrite !Forall_seq, !Forall_seqZ.
  setoid_rewrite Forall_seqZ.
  intros H1 H2 H3 H4 H5 H6 H7. split.
  - done.
  - intros i Hi. apply H2. lia.
  - done.
  - intros i c t Hc Ht.
    pose proof (lookup_lt_Some _ _ _ Hc) as Hi.
    apply (H4 i); [lia|]. rewrite (list_lookup_total_correct _ _ _ Hc). lia.
  - intros z Hz. apply H5. lia.
  - intros i z Hi Hz. apply (H6 i); lia.
  - intros z Hz. apply H7. lia.
Qed.

(** In a model of the puzzle's assertions every line reads back as its hint
    line, when that holds positive numbers only. *)
Lemma encode_line_hints m horizontal vertical :
  models m (encode horizontal vertical) →
  (∀ j c, horizontal !! j = Some c → Forall (λ x, 0 < x) c →
     line_hints (line_cells (array_f m) 1
                   (Z.of_nat j * Z.of_nat (length vertical))
                   (Z.of_nat (length vertical))) = c)
  ∧ (∀ i c, vertical !! i = Some c → Forall (λ x, 0 < x) c →
       line_hints (line_cells (array_f m) (Z.of_nat (length vertical))
                     (Z.of_nat i) (Z.of_nat (length horizontal))) = c).
Proof.
  intros [Hrows Hcols]%models_encode.
  assert (∀ c skip base size prefix,
    models m (_add_column c skip base size prefix []) →
    Forall (λ x, 0 < x) c →
    line_hints (line_cells (array_f m) skip base size) = c) as Hline.
  { intros c skip base size prefix Hm Hpos.
    destruct (decide (c = [])) as [->|Hne].
    - apply _add_column_nil_models in Hm as [_ Hempty].
      by apply line_hints_empty.
    - apply _add_column_placed in Hm as [_ Hplaced]; [|done].
      by apply (line_placed_hints _ (offsets m prefix)). }
  split.
  - intros j c Hc Hpos. eapply Hline; [by apply Hrows|done].
  - intros i c Hc Hpos. eapply Hline; [by apply Hcols|done].
Qed.

Ltac check_placed :=
  apply _add_column_placed; [done|]; split; [constructor|];
  apply line_placed_bounded;
  repeat (first [ apply Forall_nil_2 | apply Forall_cons_2 ]);
  vm_compute; done.

Lemma doc_model_models : models doc_model (encode doc_horizontal doc_vertical).
Proof.
  apply models_encode. split.
  - intros [|[|[|j]]] c Hc; simpl in Hc; [| | |done]; injection Hc as <-.
    + check_placed.
    + check_placed.
    + check_placed.
  - intros [|[|[|[|[|i]]]]] c Hc; simpl in Hc; [| | | | |done]; injection Hc as <-.
    + check_placed.
    + check_placed.
    + check_placed.
    + check_placed.
    + check_placed.
Qed.

(** The puzzle of the usage documentation has one answer. *)
Lemma doc_cells_unique (b0 b1 b2 b3 b4 b5 b6 b7 b8 b9 b10 b11 b12 b13 b14 : bool) :
  line_hints [b1; b6; b11] = [1; 1] →
  line_hints [b2; b7; b12] = [1; 1] →
  line_hints [b3; b8; b13] = [1; 1] →
  line_hints [b0; b1; b2; b3; b4] = [3] →
  line_hints [b5; b6; b7; b8; b9] = [1; 1] →
  line_hints [b10; b11; b12; b13; b14] = [3] →
  [[b0; b5; b10]; [b1; b6; b11]; [b2; b7; b12]; [b3; b8; b13]; [b4; b9; b14]]
  = doc_grid.
Proof.
  intros Hc1 Hc2 Hc3 Hr0 Hr1 Hr2.
  destruct b1, b6, b11; try discriminate Hc1;
  destruct b2, b7, b12; try discriminate Hc2;
  destruct b3, b8, b13; try discriminate Hc3;
  destruct b0, b4; try discriminate Hr0;
  destruct b5, b9; try discriminate Hr1;
  destruct b10, b14; try discriminate Hr2.
  reflexivity.
Qed.

Lemma doc_model_unique m :
  models m (encode doc_horizontal doc_vertical) →
  grid_of (array_f m) 5 3 = doc_grid.
Proof.
  intros [Hrows Hcols]%encode_line_hints.
  pose proof (Hrows 0%nat [3] eq_refl ltac:(by repeat constructor)) as Hr0.
  pose proof (Hrows 1%nat [1; 1] eq_refl ltac:(by repeat constructor)) as Hr1.
  pose proof (Hrows 2%nat [3] eq_refl ltac:(by repeat constructor)) as Hr2.
  pose proof (Hcols 1%nat [1; 1] eq_refl ltac:(by repeat constructor)) as Hc1.
  pose proof (Hcols 2%nat [1; 1] eq_refl ltac:(by repeat constructor)) as Hc2.
  pose proof (Hcols 3%nat [1; 1] eq_refl ltac:(by repeat constructor)) as Hc3.
  exact (doc_cells_unique
           (array_f m 0) (array_f m 1) (array_f m 2) (array_f m 3) (array_f m 4)
           (array_f m 5) (array_f m 6) (array_f m 7) (array_f m 8) (array_f m 9)
           (array_f m 10) (array_f m 11) (array_f m 12) (array_f m 13)
           (array_f m 14) Hc1 Hc2 Hc3 Hr0 Hr1 Hr2).
Qed.

(** The scenario as the specification states it has no answer, whatever the
    hint line of the fourth column. *)
Lemma spec_cells_unsat (b0 b1 b2 b5 b6 b7 b10 b11 b12 b13 b14 : bool) :
  line_hints [b0; b5; b10] = [1; 1] →
  line_hints [b1; b6; b11] = [1; 1] →
  line_hints [b2; b7; b12] = [1; 1] →
  line_hints [b10; b11; b12; b13; b14] = [1] →
  False.
Proof.
  intros Hc0 Hc1 Hc2 Hr2.
  destruct b0, b5, b10; try discriminate Hc0;
  destruct b1, b6, b11; try discriminate Hc1;
  destruct b2, b7, b12; try discriminate Hc2;
  destruct b13, b14; discriminate Hr2.
Qed.

Lemma spec_scenario_unsat c3 m :
  ¬ models m (encode spec_horizontal (spec_vertical c3)).
Proof.
  intros [Hrows Hcols]%encode_line_hints.
  pose proof (Hrows 2%nat [1] eq_refl ltac:(by repeat constructor)) as Hr2.
  pose proof (Hcols 0%nat [1; 1] eq_refl ltac:(by repeat constructor)) as Hc0.
  pose proof (Hcols 1%nat [1; 1] eq_refl ltac:(by repeat constructor)) as Hc1.
  pose proof (Hcols 2%nat [1; 1] eq_refl ltac:(by repeat constructor)) as Hc2.
  exact (spec_cells_unsat
           (array_f m 0) (array_f m 1) (array_f m 2)
           (array_f m 5) (array_f m 6) (array_f m 7)
           (array_f m 10) (array_f m 11) (array_f m 12) (array_f m 13)
           (array_f m 14) Hc0 Hc1 Hc2 Hr2).
Qed.

(** C5 (as amended): for the puzzle of the usage documentation, width 5 and
    height 3 with row hints [3], [1 1], [3] and column hints [1], [1 1],
    [1 1], [1 1], [1], and a z3 that answers [sat] only with a model of the
    assertions and does answer [sat] when they have a model, [solve] returns
    the grid whose rows read [_xxx_], [x___x], [_xxx_], and [print_answer]
    writes these three lines, top row first. *)
Theorem docstring_example check fout :
  (∀ m, check (encode doc_horizontal doc_vertical) = sat m →
        models m (encode doc_horizontal doc_vertical)) →
  ((∃ m, models m (encode doc_horizontal doc_vertical)) →
   ∃ m, check (encode doc_horizontal doc_vertical) = sat m) →
  let new := __init__ doc_horizontal doc_vertical in
  (solve check new).1 = Some doc_grid
  ∧ (print_answer check new fout).1
    = (Returned,
       fout +:+ join ((λ l, l +:+ newline) <$> ["_xxx_"; "x___x"; "_xxx_"])).
Proof.
  intros Hsound Hcomplete. cbv zeta.
  destruct Hcomplete as [m Hcheck]; [by exists doc_model; apply doc_model_models|].
  pose proof (doc_model_unique m (Hsound m Hcheck)) as Hgrid.
  split.
  - rewrite (solve_new_sat check _ _ m Hcheck). simpl. by rewrite Hgrid.
  - rewrite (print_answer_new_sat check _ _ m fout Hcheck) by (simpl; lia).
    simpl length. by rewrite Hgrid.
Qed.

Lemma docstring_example_witness :
  (solve (check_sat doc_model) (__init__ doc_horizontal doc_vertical)).1
  = Some doc_grid
  ∧ (print_answer (check_sat doc_model) (__init__ doc_horizontal doc_vertical)
       EmptyString).1
    = (Returned,
       EmptyString
       +:+ join ((λ l, l +:+ newline) <$> ["_xxx_"; "x___x"; "_xxx_"])).
Proof.
  apply (docstring_example (check_sat doc_model) EmptyString).
  - intros m [= <-]. apply doc_model_models.
  - intros _. by exists doc_model.
Defined.

(** C5 as stated fails: with row hints [3], [1 1], [1] and column hints
    [1 1], [1 1], [1 1], [0] or none, [1], no model satisfies the assertions
    (the first three columns fill the bottom row's first three cells, against
    its hint [1]), so a z3 that answers [unsat] is right, [solve] returns
    [None] and [print_answer] writes [No solutions!] instead of a grid. *)
Lemma spec_scenario_no_solution :
  ((∀ m, ¬ models m (encode spec_horizontal (spec_vertical [0])))
   ∧ (∀ m, ¬ models m (encode spec_horizontal (spec_vertical []))))
  ∧ (solve check_unsat (__init__ spec_horizontal (spec_vertical [0]))).1 = None
  ∧ (print_answer check_unsat (__init__ spec_horizontal (spec_vertical [0]))
       EmptyString).1
    = (Returned, "No solutions!" +:+ newline)
  ∧ (solve check_unsat (__init__ spec_horizontal (spec_vertical []))).1 = None.
Proof.
  split; [split; intros m; apply spec_scenario_unsat|].
  split; [|split]; reflexivity.
Qed.

(** ** Two lines that share a placement variable *)

Lemma placed_offset_lower f o numbers skip base size (i : nat) :
  line_placed f o numbers skip base size →
  Forall (λ c, 1 ≤ c) numbers → (i < length numbers)%nat →
  2 * Z.of_nat i ≤ o i.
Proof.
  intros Hplaced Hpos. induction i as [|i IH]; intros Hi.
  - pose proof (placed_first _ _ _ _ _ _ Hplaced). lia.
  - pose proof (placed_order _ _ _ _ _ _ Hplaced i Hi) as Hord.
    assert (1 ≤ numbers !!! i) as Hone.
    { rewrite Forall_lookup in Hpos. apply (Hpos i).
      apply list_lookup_lookup_total_lt. lia. }
    specialize (IH ltac:(lia)). lia.
Qed.

(** C2 fails on the code: the placement variables of row 1 and of row 11 are
    named by gluing the row number and the run number, so the eleventh run of
    row 1 and the first run of row 11 are one z3 constant, [h110].  For the
    hints derived from [collision_grid] row 1 forces [h110 >= 20] and row 11
    forces [h110 + 2 <= 21]: the assertions have no model although the grid
    itself answers the hints, and a z3 that is right cannot answer [sat]. *)
Theorem name_collision_no_model :
  let horizontal := row_hints collision_grid 12 in
  let vertical := column_hints collision_grid in
  (length vertical = 21%nat ∧ length horizontal = 12%nat)
  ∧ fmt_sd (fmt_h 1) 10 = fmt_sd (fmt_h 11) 0
  ∧ (∀ m, ¬ models m (encode horizontal vertical))
  ∧ (solve check_unsat (__init__ horizontal vertical)).1 = None.
Proof.
  cbv zeta. split; [by split|]. split; [reflexivity|]. split; [|reflexivity].
  intros m [Hrows _]%models_encode.
  pose proof (Hrows 1%nat (replicate 11 1) eq_refl) as Hr1.
  pose proof (Hrows 11%nat [2] eq_refl) as Hr11.
  apply _add_column_placed in Hr1 as [_ Hp1]; [|done].
  apply _add_column_placed in Hr11 as [_ Hp11]; [|done].
  pose proof (placed_offset_lower _ _ _ _ _ _ 10 Hp1
                ltac:(by repeat constructor) ltac:(simpl; lia)) as Hlow.
  pose proof (placed_last _ _ _ _ _ _ Hp11) as Hhigh.
  change (offsets m (fmt_h 1) 10) with (int_const m "h110") in Hlow.
  change (int_const m "h110" + 2 ≤ 21) in Hhigh.
  lia.
Qed.

(** ** Every line has a placement: from the cells to the offsets *)

Lemma starts_from_length pos cur l :
  length (starts_from pos cur l) = length (runs_from cur l).
Proof.
  revert pos cur. induction l as [|[] l IH]; intros pos cur; simpl.
  - by case_decide.
  - apply IH.
  - case_decide; simpl; by rewrite IH.
Qed.

Lemma runs_laid_extend c size pos ps :
  c pos = false → runs_laid_at c size (pos + 1) ps → runs_laid c size pos ps.
Proof.
  intros Hc. destruct ps as [|[o h] ps]; simpl.
  - intros [Hle Hempty]. split; [lia|]. intros z Hz.
    destruct (decide (z = pos)) as [->|]; [done|]. apply Hempty. lia.
  - intros (Hle & Hh & Hempty & Hfilled & Hrest).
    split; [lia|]. split; [done|]. split; [|done].
    intros z Hz. destruct (decide (z = pos)) as [->|]; [done|]. apply Hempty. lia.
Qed.

Lemma runs_laid_weaken c size pos ps :
  runs_laid c size pos ps → runs_laid_at c size pos ps.
Proof.
  destruct ps as [|[o h] ps]; simpl; [done|].
  intros (Hle & Hrest). split; [lia|done].
Qed.

(** The runs read off a line, with their starts, are laid out in it. *)
Lemma starts_runs_laid c size l pos cur :
  l = c <$> seqZ pos (size - pos) → pos ≤ size → 0 ≤ cur →
  (∀ z, pos - cur ≤ z < pos → c z = true) →
  if decide (0 < cur) then
    ∃ h rest,
      zip (starts_from pos cur l) (runs_from cur l) = (pos - cur, h) :: rest
      ∧ cur ≤ h
      ∧ (∀ z, pos - cur ≤ z < pos - cur + h → c z = true)
      ∧ runs_laid c size (pos - cur + h) rest
  else runs_laid_at c size pos (zip (starts_from pos cur l) (runs_from cur l)).
Proof.
  revert pos cur. induction l as [|b l IH]; intros pos cur Hl Hpos Hcur Hrun.
  - assert (size = pos) as ->.
    { destruct (decide (0 < size - pos)) as [Hlt|]; [|lia].
      rewrite seqZ_cons in Hl by done. discriminate. }
    simpl. case_decide.
    + exists cur, []. simpl.
      split; [done|]. split; [lia|]. split; [|split; [lia|]].
      * intros z Hz. apply Hrun. lia.
      * intros z Hz. lia.
    + simpl. split; [done|]. intros z Hz. lia.
  - assert (0 < size - pos) as Hlt.
    { destruct (decide (0 < size - pos)); [done|].
      rewrite seqZ_nil in Hl by lia. discriminate. }
    rewrite seqZ_cons in Hl by done. simpl in Hl. injection Hl as -> ->.
    replace (Z.pred (size - pos)) with (size - Z.succ pos) in IH by lia.
    replace (Z.pred (size - pos)) with (size - Z.succ pos) by lia.
    replace (Z.succ pos) with (pos + 1) in * by lia.
    destruct (c pos) eqn:Hc; simpl.
    + specialize (IH (pos + 1) (cur + 1) eq_refl ltac:(lia) ltac:(lia)).
      rewrite decide_True in IH by lia.
      destruct IH as (h & rest & Hzip & Hh & Hfilled & Hrest).
      { intros z Hz. destruct (decide (z = pos)) as [->|]; [done|].
        apply Hrun. lia. }
      replace (pos + 1 - (cur + 1)) with (pos - cur) in * by lia.
      case_decide.
      * exists h, rest. split; [done|]. split; [lia|done].
      * assert (cur = 0) as -> by lia. rewrite Hzip.
        replace (pos - 0) with pos in * by lia. simpl.
        split; [lia|]. split; [lia|]. split; [|done]. intros z Hz. lia.
    + specialize (IH (pos + 1) 0 eq_refl ltac:(lia) ltac:(lia)).
      rewrite decide_False in IH by lia.
      specialize (IH ltac:(intros; lia)).
      case_decide; simpl.
      * exists cur, (zip (starts_from (pos + 1) 0 (c <$> seqZ (pos + 1) (size - (pos + 1))))
                       (runs_from 0 (c <$> seqZ (pos + 1) (size - (pos + 1))))).
        split; [done|]. split; [lia|]. split.
        { intros z Hz. apply Hrun. lia. }
        replace (pos - cur + cur) with pos by lia.
        by apply runs_laid_extend.
      * apply runs_laid_weaken. by apply runs_laid_extend.
Qed.

Lemma line_runs_laid f skip base size :
  0 ≤ size →
  runs_laid_at (cell f skip base) size 0
    (zip (run_starts (line_cells f skip base size))
         (line_hints (line_cells f skip base size))).
Proof.
  intros Hsize.
  pose proof (starts_runs_laid (cell f skip base) size
                (line_cells f skip base size) 0 0) as H.
  rewrite decide_False in H by lia. apply H; try done.
  - unfold line_cells, xrange. by rewrite Z.sub_0_r.
  - intros z Hz. lia.
Qed.

Lemma runs_laid_index c size ps pos :
  runs_laid c size pos ps →
  (∀ i o h, ps !! i = Some (o, h) →
     0 < h ∧ ∀ z, o ≤ z < o + h → c z = true)
  ∧ (∀ i o h o' h', ps !! i = Some (o, h) → ps !! S i = Some (o', h') →
       o + h < o' ∧ ∀ z, o + h ≤ z < o' → c z = false)
  ∧ (∀ o h, last ps = Some (o, h) →
       o + h ≤ size ∧ ∀ z, o + h ≤ z < size → c z = false).
Proof.
  revert pos. induction ps as [|[o0 h0] ps IH]; intros pos; simpl.
  - intros _. split; [|split]; intros; done.
  - intros (Hpos & Hh & Hempty & Hfilled & Hrest).
    destruct (IH _ Hrest) as (IH1 & IH2 & IH3). split; [|split].
    + intros [|i] o h Hi; simpl in Hi; [|by apply (IH1 i)].
      by injection Hi as <- <-.
    + intros [|i] o h o' h' Hi HSi; simpl in Hi, HSi;
        [|exact (IH2 i _ _ _ _ Hi HSi)].
      injection Hi as <- <-. destruct ps as [|[o1 h1] ps]; [done|].
      simpl in HSi. injection HSi as <- <-.
      destruct Hrest as (? & _ & ? & _). done.
    + intros o h Hlast. destruct ps as [|p ps]; [|by apply IH3].
      simpl in Hlast. injection Hlast as <- <-. by destruct Hrest.
Qed.

(** Runs laid out in a line are a placement of their lengths at their
    starts. *)
Lemma laid_line_placed f skip base size ps :
  runs_laid_at (cell f skip base) size 0 ps → ps ≠ [] →
  line_placed f (λ i, ps.*1 !!! i) ps.*2 skip base size.
Proof.
  intros Hlaid Hne. destruct ps as [|[o0 h0] ps]; [done|].
  destruct Hlaid as (Hpos & Hh & Hempty & Hfilled & Hrest).
  destruct (runs_laid_index _ _ _ _ Hrest) as (H1 & H2 & H3).
  remember ((o0, h0) :: ps) as all eqn:Eall.
  assert (∀ i o h, all !! i = Some (o, h) →
            0 < h ∧ ∀ z, o ≤ z < o + h → cell f skip base z = true) as A1.
  { subst all. intros [|i] o h Hi; simpl in Hi; [|by apply (H1 i)].
    by injection Hi as <- <-. }
  assert (∀ i o h o' h', all !! i = Some (o, h) → all !! S i = Some (o', h') →
            o + h < o' ∧ ∀ z, o + h ≤ z < o' → cell f skip base z = false) as A2.
  { subst all. intros [|i] o h o' h' Hi HSi; simpl in Hi, HSi;
      [|exact (H2 i _ _ _ _ Hi HSi)].
    injection Hi as <- <-. destruct ps as [|[o1 h1] ps]; [done|].
    simpl in HSi. injection HSi as <- <-.
    destruct Hrest as (? & _ & ? & _). done. }
  assert (∀ o h, last all = Some (o, h) →
            o + h ≤ size ∧ ∀ z, o + h ≤ z < size → cell f skip base z = false) as A3.
  { subst all. intros o h Hlast. destruct ps as [|p ps]; [|by apply H3].
    simpl in Hlast. injection Hlast as <- <-. by destruct Hrest. }
  assert (∀ i, (i < length all)%nat →
            all !! i = Some (all.*1 !!! i, all.*2 !!! i)) as Hall.
  { intros i Hi. destruct (lookup_lt_is_Some_2 all i Hi) as [[o h] Hoh].
    rewrite Hoh. f_equal. f_equal.
    - symmetry. apply list_lookup_total_correct.
      by rewrite list_lookup_fmap, Hoh.
    - symmetry. apply list_lookup_total_correct.
      by rewrite list_lookup_fmap, Hoh. }
  assert (length all.*2 = length all) as Hlen by apply length_fmap.
  assert (0 < length all)%nat as Hlen0 by (subst all; simpl; lia).
  assert (all.*1 !!! 0%nat = o0) as Ho0 by (by subst all).
  assert (last all = Some (all.*1 !!! (length all - 1)%nat,
                           all.*2 !!! (length all - 1)%nat)) as Hlast.
  { rewrite last_lookup, <- Nat.sub_1_r. apply Hall. lia. }
  split; rewrite ?Hlen.
  - by rewrite Ho0.
  - intros i Hi.
    apply (A2 i _ _ _ _ (Hall i ltac:(lia)) (Hall (S i) ltac:(lia))).
  - apply (A3 _ _ Hlast).
  - intros i c t Hc Ht.
    assert (i < length all)%nat as Hi.
    { apply lookup_lt_Some in Hc. by rewrite Hlen in Hc. }
    pose proof (Hall i Hi) as Hi'.
    rewrite (list_lookup_total_correct _ _ _ Hc) in Hi'.
    destruct (A1 i _ _ Hi') as [_ Hf].
    replace (base + (all.*1 !!! i + t) * skip)
      with (base + skip * (all.*1 !!! i + t)) by lia.
    apply Hf. lia.
  - intros z Hz. apply Hempty. rewrite Ho0 in Hz. lia.
  - intros i z Hi Hz.
    by apply (A2 i _ _ _ _ (Hall i ltac:(lia)) (Hall (S i) ltac:(lia))).
  - intros z Hz. by apply (A3 _ _ Hlast).
Qed.

(** Every line of [size >= 0] cells with a filled cell has a placement of its
    own hints: its runs, at their starts. *)
Lemma line_cells_placed f skip base size :
  0 ≤ size → line_hints (line_cells f skip base size) ≠ [] →
  line_placed f (λ i, run_starts (line_cells f skip base size) !!! i)
    (line_hints (line_cells f skip base size)) skip base size.
Proof.
  intros Hsize Hne.
  pose proof (line_runs_laid f skip base size Hsize) as Hlaid.
  pose proof (starts_from_length 0 0 (line_cells f skip base size)) as Hlen.
  fold (run_starts (line_cells f skip base size)) in Hlen.
  fold (line_hints (line_cells f skip base size)) in Hlen.
  apply laid_line_placed in Hlaid.
  - by rewrite fst_zip, snd_zip in Hlaid by lia.
  - intros Hzip. apply Hne.
    apply (f_equal (fmap snd)) in Hzip. by rewrite snd_zip in Hzip by lia.
Qed.

(** A line without hints has no filled cell. *)
Lemma line_hints_nil_empty f skip base size :
  0 ≤ size → line_hints (line_cells f skip base size) = [] →
  ∀ k, 0 ≤ k < size → cell f skip base k = false.
Proof.
  intros Hsize Hnil.
  pose proof (line_runs_laid f skip base size Hsize) as Hlaid.
  rewrite Hnil, zip_with_nil_r in Hlaid. by destruct Hlaid.
Qed.

(** The hints read off a line are positive. *)
Lemma runs_from_pos cur l : 0 ≤ cur → Forall (λ c, 0 < c) (runs_from cur l).
Proof.
  revert cur. induction l as [|[] l IH]; intros cur Hcur; simpl.
  - case_decide; by repeat constructor.
  - apply IH. lia.
  - case_decide; [constructor; [done|]|]; by apply IH.
Qed.

(** ** Names of placement variables across lines *)

Lemma pretty_digit (k : nat) :
  (k < 10)%nat → ∃ c, pretty k = String c EmptyString.
Proof.
  intros Hk.
  do 10 (destruct k as [|k]; [by eexists|]). lia.
Qed.

Lemma string_app_last_inj (s s' : string) (c c' : ascii) :
  s +:+ String c EmptyString = s' +:+ String c' EmptyString → s = s' ∧ c = c'.
Proof.
  revert s'. induction s as [|a s IH]; intros [|a' s'] Heq.
  - by injection Heq as ->.
  - rewrite string_app_cons in Heq. injection Heq as _ Heq.
    by destruct s'.
  - rewrite string_app_cons in Heq. injection Heq as _ Heq.
    by destruct s.
  - rewrite !string_app_cons in Heq. injection Heq as -> Heq.
    by destruct (IH _ Heq) as [-> ->].
Qed.

(** Placement variables of lines with at most ten runs each do not clash:
    the run number is one digit. *)
Lemma fmt_sd_line_inj (p p' : string) (j j' k k' : nat) :
  (k < 10)%nat → (k' < 10)%nat →
  fmt_sd (p +:+ pretty j) k = fmt_sd (p' +:+ pretty j') k' →
  p +:+ pretty j = p' +:+ pretty j' ∧ k = k'.
Proof.
  intros Hk Hk' Heq. unfold fmt_sd in Heq.
  destruct (pretty_digit k Hk) as [c Hc].
  destruct (pretty_digit k' Hk') as [c' Hc'].
  rewrite Hc, Hc' in Heq.
  destruct (string_app_last_inj _ _ _ _ Heq) as [Hp ->].
  split; [done|]. apply (inj pretty). by rewrite Hc, Hc'.
Qed.

Lemma fmt_h_v_inj (j j' k k' : nat) :
  (k < 10)%nat → (k' < 10)%nat →
  (fmt_sd (fmt_h j) k = fmt_sd (fmt_h j') k' → j = j' ∧ k = k')
  ∧ (fmt_sd (fmt_v j) k = fmt_sd (fmt_v j') k' → j = j' ∧ k = k')
  ∧ fmt_sd (fmt_h j) k ≠ fmt_sd (fmt_v j') k'.
Proof.
  intros Hk Hk'. unfold fmt_h, fmt_v. split; [|split].
  - intros [Hp ->]%fmt_sd_line_inj; [|done..].
    split; [|done]. apply (inj (String.app "h")) in Hp. by apply (inj pretty).
  - intros [Hp ->]%fmt_sd_line_inj; [|done..].
    split; [|done]. apply (inj (String.app "v")) in Hp. by apply (inj pretty).
  - intros [Hp _]%fmt_sd_line_inj; [|done..]. discriminate Hp.
Qed.

Lemma table_value_unique (table : list (string * Z)) (name : string) (z0 : Z) :
  (∀ z, (name, z) ∈ table → z = z0) → (name, z0) ∈ table →
  table_value table name = z0.
Proof.
  induction table as [|[x z] table IH]; intros Huniq Hin.
  - by apply elem_of_nil in Hin.
  - simpl. case_decide as Hx.
    + subst x. apply Huniq. left.
    + apply IH.
      * intros z' Hz'. apply Huniq. by right.
      * apply elem_of_cons in Hin as [[= -> _]|Hin]; done.
Qed.

Lemma elem_of_line_table prefix cells x z :
  (x, z) ∈ line_table prefix cells
  ↔ ∃ k, x = fmt_sd prefix k ∧ run_starts cells !! k = Some z.
Proof.
  unfold line_table. rewrite elem_of_lookup_imap. split.
  - intros (k & o & [= -> ->] & Ho). by exists k.
  - intros (k & -> & Ho). by exists k, z.
Qed.

(** ** Rows and columns of the grid of a model *)

Lemma line_cells_range f skip base (n : nat) :
  line_cells f skip base (Z.of_nat n)
  = (λ k, f (base + skip * Z.of_nat k)) <$> range n.
Proof.
  apply list_eq. intros i. unfold range. rewrite list_lookup_fmap.
  destruct (decide (i < n)%nat) as [Hi|Hi].
  - by rewrite line_cells_lookup, lookup_seq_lt by lia.
  - rewrite lookup_seq_ge by lia. unfold line_cells, xrange.
    by rewrite list_lookup_fmap, lookup_seqZ_ge by lia.
Qed.

Lemma grid_of_column_cells f width height i :
  (i < width)%nat →
  grid_of f width height !! i
  = Some (line_cells f (Z.of_nat width) (Z.of_nat i) (Z.of_nat height)).
Proof.
  intros Hi. unfold grid_of, range.
  rewrite list_lookup_fmap, lookup_seq_lt by done. simpl. f_equal.
  rewrite line_cells_range. apply list_fmap_ext. intros _ j _. f_equal. lia.
Qed.

Lemma grid_of_row_cells f width height j :
  (j < height)%nat →
  grid_row (grid_of f width height) j
  = line_cells f 1 (Z.of_nat j * Z.of_nat width) (Z.of_nat width).
Proof.
  intros Hj. unfold grid_row, grid_of. rewrite <- list_fmap_compose.
  rewrite line_cells_range. apply list_fmap_ext. intros _ i _. simpl.
  unfold range. rewrite list_lookup_fmap, lookup_seq_lt by done. simpl.
  f_equal. lia.
Qed.

Lemma row_hints_grid_of f width height :
  row_hints (grid_of f width height) height
  = (λ j, line_hints (line_cells f 1 (Z.of_nat j * Z.of_nat width)
                        (Z.of_nat width))) <$> range height.
Proof.
  unfold row_hints. apply list_fmap_ext. intros k j Hj.
  apply list_elem_of_lookup_2, elem_of_range in Hj.
  by rewrite grid_of_row_cells.
Qed.

Lemma column_hints_grid_of f width height :
  column_hints (grid_of f width height)
  = (λ i, line_hints (line_cells f (Z.of_nat width) (Z.of_nat i)
                        (Z.of_nat height))) <$> range width.
Proof.
  unfold column_hints, grid_of. rewrite <- list_fmap_compose.
  apply list_fmap_ext. intros _ i _. simpl. f_equal.
  rewrite line_cells_range. apply list_fmap_ext. intros _ j _. f_equal. lia.
Qed.

(** ** The encoding is complete when no two lines share a variable *)

Lemma run_starts_length cells :
  length (run_starts cells) = length (line_hints cells).
Proof. apply starts_from_length. Qed.

Lemma elem_of_grid_table f width height x z :
  (x, z) ∈ grid_table f width height
  ↔ (∃ j k, (j < height)%nat ∧ x = fmt_sd (fmt_h j) k
            ∧ run_starts (line_cells f 1 (Z.of_nat j * Z.of_nat width)
                            (Z.of_nat width)) !! k = Some z)
    ∨ (∃ i k, (i < width)%nat ∧ x = fmt_sd (fmt_v i) k
              ∧ run_starts (line_cells f (Z.of_nat width) (Z.of_nat i)
                              (Z.of_nat height)) !! k = Some z).
Proof.
  unfold grid_table. rewrite elem_of_app, !list_elem_of_bind.
  setoid_rewrite elem_of_line_table. setoid_rewrite elem_of_range.
  split.
  - intros [(j & (k & -> & Hk) & Hj)|(i & (k & -> & Hk) & Hi)].
    + left. by exists j, k.
    + right. by exists i, k.
  - intros [(j & k & Hj & -> & Hk)|(i & k & Hi & -> & Hk)].
    + left. exists j. split; [by exists k|done].
    + right. exists i. split; [by exists k|done].
Qed.

Section Complete.
Context (f : Z → bool) (width height : nat).
Context (Hbound : runs_bounded f width height 10).

Lemma grid_table_row (j k : nat) (z : Z) :
  (j < height)%nat →
  run_starts (line_cells f 1 (Z.of_nat j * Z.of_nat width) (Z.of_nat width)) !! k
  = Some z →
  table_value (grid_table f width height) (fmt_sd (fmt_h j) k) = z.
Proof.
  intros Hj Hk. destruct Hbound as [Hrows Hcols].
  assert (k < 10)%nat as Hk10.
  { apply lookup_lt_Some in Hk. rewrite run_starts_length in Hk.
    specialize (Hrows j Hj). lia. }
  apply table_value_unique.
  - intros z' [(j' & k' & Hj' & Hname & Hk')|(i & k' & Hi & Hname & Hk')]%elem_of_grid_table.
    + assert (k' < 10)%nat as Hk10'.
      { apply lookup_lt_Some in Hk'. rewrite run_starts_length in Hk'.
        specialize (Hrows j' Hj'). lia. }
      destruct (fmt_h_v_inj j j' k k' Hk10 Hk10') as (Hinj & _ & _).
      destruct (Hinj Hname) as [<- <-]. congruence.
    + assert (k' < 10)%nat as Hk10'.
      { apply lookup_lt_Some in Hk'. rewrite run_starts_length in Hk'.
        specialize (Hcols i Hi). lia. }
      destruct (fmt_h_v_inj j i k k' Hk10 Hk10') as (_ & _ & Hne). done.
  - apply elem_of_grid_table. left. by exists j, k.
Qed.

Lemma grid_table_column (i k : nat) (z : Z) :
  (i < width)%nat →
  run_starts (line_cells f (Z.of_nat width) (Z.of_nat i) (Z.of_nat height)) !! k
  = Some z →
  table_value (grid_table f width height) (fmt_sd (fmt_v i) k) = z.
Proof.
  intros Hi Hk. destruct Hbound as [Hrows Hcols].
  assert (k < 10)%nat as Hk10.
  { apply lookup_lt_Some in Hk. rewrite run_starts_length in Hk.
    specialize (Hcols i Hi). lia. }
  apply table_value_unique.
  - intros z' [(j' & k' & Hj' & Hname & Hk')|(i' & k' & Hi' & Hname & Hk')]%elem_of_grid_table.
    + assert (k' < 10)%nat as Hk10'.
      { apply lookup_lt_Some in Hk'. rewrite run_starts_length in Hk'.
        specialize (Hrows j' Hj'). lia. }
      destruct (fmt_h_v_inj j' i k' k Hk10' Hk10) as (_ & _ & Hne). done.
    + assert (k' < 10)%nat as Hk10'.
      { apply lookup_lt_Some in Hk'. rewrite run_starts_length in Hk'.
        specialize (Hcols i' Hi'). lia. }
      destruct (fmt_h_v_inj i i' k k' Hk10 Hk10') as (_ & Hinj & _).
      destruct (Hinj Hname) as [<- <-]. congruence.
  - apply elem_of_grid_table. right. by exists i, k.
Qed.

End Complete.

Lemma line_placed_ext f (o o' : nat → Z) numbers skip base size :
  (∀ i, (i < length numbers)%nat → o i = o' i) → numbers ≠ [] →
  line_placed f o numbers skip base size →
  line_placed f o' numbers skip base size.
Proof.
  intros Hext Hne [P1 P2 P3 P4 P5 P6 P7].
  assert (0 < length numbers)%nat as Hlen by (destruct numbers; [done|simpl; lia]).
  split.
  - by rewrite <- Hext by lia.
  - intros i Hi. rewrite <- !Hext by lia. by apply P2.
  - by rewrite <- Hext by lia.
  - intros i c t Hc Ht. rewrite <- Hext by (by apply lookup_lt_Some in Hc).
    by apply (P4 i c).
  - intros z Hz. apply P5. by rewrite Hext by lia.
  - intros i z Hi Hz. apply (P6 i); [done|]. by rewrite !Hext by lia.
  - intros z Hz. apply P7. by rewrite Hext by lia.
Qed.

(** One line of the grid, under the model of the grid. *)
Lemma grid_model_line f width height skip base size prefix :
  0 ≤ size →
  (∀ k z, run_starts (line_cells f skip base size) !! k = Some z →
     table_value (grid_table f width height) (fmt_sd prefix k) = z) →
  models (grid_model f width height)
    (_add_column (line_hints (line_cells f skip base size)) skip base size
       prefix []).
Proof.
  intros Hsize Htable.
  destruct (decide (line_hints (line_cells f skip base size) = [])) as [Hnil|Hne].
  - rewrite Hnil. apply _add_column_nil_models. split; [constructor|].
    by apply line_hints_nil_empty.
  - apply _add_column_placed; [done|]. split; [constructor|].
    apply (line_placed_ext _
             (λ i, run_starts (line_cells f skip base size) !!! i));
      [|done|by apply line_cells_placed].
    intros i Hi. unfold offsets, grid_model. simpl. symmetry.
    apply Htable. apply list_lookup_lookup_total_lt.
    by rewrite run_starts_length.
Qed.

(** The hints derived from a grid whose lines have at most ten runs each
    have a model: the grid itself, with every run at its start. *)
Lemma grid_model_models f width height :
  runs_bounded f width height 10 →
  models (grid_model f width height)
    (encode (row_hints (grid_of f width height) height)
            (column_hints (grid_of f width height))).
Proof.
  intros Hbound. apply models_encode.
  rewrite row_hints_grid_of, column_hints_grid_of.
  rewrite !length_fmap. unfold range. rewrite !length_seq. split.
  - intros j c Hc. rewrite list_lookup_fmap in Hc.
    destruct (seq 0 height !! j) as [j'|] eqn:Hj; [|done].
    apply lookup_seq in Hj as [-> Hj]. simpl in Hc. injection Hc as <-.
    apply grid_model_line; [lia|]. intros k z Hk.
    by apply grid_table_row.
  - intros i c Hc. rewrite list_lookup_fmap in Hc.
    destruct (seq 0 width !! i) as [i'|] eqn:Hi; [|done].
    apply lookup_seq in Hi as [-> Hi]. simpl in Hc. injection Hc as <-.
    apply grid_model_line; [lia|]. intros k z Hk.
    by apply grid_table_column.
Qed.

(** In a model of the assertions of a puzzle whose hint lines hold positive
    numbers only, the grid [_solve] reads has the hints of the puzzle. *)
Lemma model_grid_hints m horizontal vertical :
  models m (encode horizontal vertical) →
  Forall (Forall (λ x, 0 < x)) horizontal →
  Forall (Forall (λ x, 0 < x)) vertical →
  let q := grid_of (array_f m) (length vertical) (length horizontal) in
  row_hints q (length horizontal) = horizontal ∧ column_hints q = vertical.
Proof.
  intros [Hrows Hcols]%encode_line_hints Hh Hv. cbv zeta.
  rewrite row_hints_grid_of, column_hints_grid_of. unfold range.
  rewrite Forall_lookup in Hh. rewrite Forall_lookup in Hv. split.
  - apply list_eq. intros j. rewrite list_lookup_fmap.
    destruct (horizontal !! j) as [c|] eqn:Hc.
    + rewrite lookup_seq_lt by (by apply lookup_lt_Some in Hc). simpl.
      f_equal. apply Hrows; [done|]. by apply (Hh j).
    + by rewrite lookup_seq_ge by (by apply lookup_ge_None in Hc).
  - apply list_eq. intros i. rewrite list_lookup_fmap.
    destruct (vertical !! i) as [c|] eqn:Hc.
    + rewrite lookup_seq_lt by (by apply lookup_lt_Some in Hc). simpl.
      f_equal. apply Hcols; [done|]. by apply (Hv i).
    + by rewrite lookup_seq_ge by (by apply lookup_ge_None in Hc).
Qed.

Lemma derived_hints_pos f width height :
  Forall (Forall (λ x, 0 < x)) (row_hints (grid_of f width height) height)
  ∧ Forall (Forall (λ x, 0 < x)) (column_hints (grid_of f width height)).
Proof.
  unfold row_hints, column_hints. rewrite !Forall_fmap.
  split; apply Forall_forall; intros x _; simpl; by apply runs_from_pos.
Qed.

(** X1: round trip, where the names do not clash: for the grid of [width]
    columns and [height] rows held by [f], no line of which has more than
    ten runs, and a z3 that answers [sat] only with a model of the
    assertions and does answer [sat] when they have a model, [solve] on the
    hints derived from the grid returns a grid with the same derived
    hints. *)
Theorem round_trip_bounded check f width height :
  runs_bounded f width height 10 →
  let horizontal := row_hints (grid_of f width height) height in
  let vertical := column_hints (grid_of f width height) in
  (∀ m, check (encode horizontal vertical) = sat m →
        models m (encode horizontal vertical)) →
  ((∃ m, models m (encode horizontal vertical)) →
   ∃ m, check (encode horizontal vertical) = sat m) →
  ∃ q, (solve check (__init__ horizontal vertical)).1 = Some q
       ∧ row_hints q height = horizontal
       ∧ column_hints q = vertical.
Proof.
  intros Hbound horizontal vertical Hsound Hcomplete.
  destruct Hcomplete as [m Hcheck].
  { exists (grid_model f width height). by apply grid_model_models. }
  pose proof (Hsound m Hcheck) as Hm.
  destruct (derived_hints_pos f width height) as [Hh Hv].
  destruct (model_grid_hints m horizontal vertical Hm Hh Hv) as [Hrow Hcol].
  assert (length horizontal = height) as Hlh.
  { unfold horizontal, row_hints, range. by rewrite length_fmap, length_seq. }
  exists (grid_of (array_f m) (length vertical) (length horizontal)).
  rewrite (solve_new_sat check _ _ m Hcheck). rewrite Hlh in Hrow, Hcol |- *.
  done.
Qed.

Lemma doc_runs_bounded : runs_bounded (array_f doc_model) 5 3 10.
Proof.
  split.
  - intros j Hj. do 3 (destruct j as [|j]; [vm_compute; lia|]). lia.
  - intros i Hi. do 5 (destruct i as [|i]; [vm_compute; lia|]). lia.
Qed.

Lemma round_trip_bounded_witness :
  ∃ q, (solve (check_sat (grid_model (array_f doc_model) 5 3))
          (__init__ (row_hints (grid_of (array_f doc_model) 5 3) 3)
                    (column_hints (grid_of (array_f doc_model) 5 3)))).1 = Some q
       ∧ row_hints q 3 = row_hints (grid_of (array_f doc_model) 5 3) 3
       ∧ column_hints q = column_hints (grid_of (array_f doc_model) 5 3).
Proof.
  apply (round_trip_bounded (check_sat (grid_model (array_f doc_model) 5 3))
           (array_f doc_model) 5 3 doc_runs_bounded).
  - intros m [= <-]. apply grid_model_models, doc_runs_bounded.
  - intros _. by eexists.
Defined.

(** Every rectangular grid is the grid of an array. *)
Lemma grid_of_array_of_grid (q : Grid) (width height : nat) :
  length q = width → Forall (λ col, length col = height) q →
  grid_of (array_of_grid q width) width height = q.
Proof.
  intros Hw Hh. apply list_eq. intros i.
  destruct (decide (i < width)%nat) as [Hi|Hi].
  2:{ rewrite (lookup_ge_None_2 q) by lia.
      apply lookup_ge_None_2. rewrite grid_of_length. lia. }
  destruct (lookup_lt_is_Some_2 q i ltac:(lia)) as [col Hcol].
  rewrite Hcol. unfold grid_of, range.
  rewrite list_lookup_fmap, lookup_seq_lt by done. simpl. f_equal.
  assert (length col = height) as Hlen.
  { rewrite Forall_lookup in Hh. by apply (Hh i). }
  apply list_eq. intros j. rewrite list_lookup_fmap.
  destruct (decide (j < height)%nat) as [Hj|Hj].
  - rewrite lookup_seq_lt by done. simpl. unfold array_of_grid, grid_cell.
    replace (Z.of_nat j * Z.of_nat width + Z.of_nat i)
      with (Z.of_nat i + Z.of_nat j * Z.of_nat width) by lia.
    rewrite Z_mod_plus_full, Z.mod_small by lia.
    rewrite Z.div_add, Z.div_small by lia.
    rewrite Z.add_0_l, !Nat2Z.id, Hcol. simpl.
    destruct (lookup_lt_is_Some_2 col j ltac:(lia)) as [b Hb].
    by rewrite Hb.
  - rewrite lookup_seq_ge by lia. simpl. symmetry.
    apply lookup_ge_None_2. lia.
Qed.

(** ** A hint line has to fit its line *)

Lemma sum_app (l1 l2 : list Z) : sum (l1 ++ l2) = sum l1 + sum l2.
Proof. induction l1 as [|x l1 IH]; simpl; [done|]. rewrite IH. lia. Qed.

Lemma placed_offset_sum f o numbers skip base size (i : nat) :
  line_placed f o numbers skip base size → (i < length numbers)%nat →
  sum (take i numbers) + Z.of_nat i ≤ o i.
Proof.
  intros Hplaced. induction i as [|i IH]; intros Hi.
  - rewrite take_0. simpl. apply (placed_first _ _ _ _ _ _ Hplaced).
  - pose proof (placed_order _ _ _ _ _ _ Hplaced i Hi) as Hord.
    rewrite (take_S_r _ _ (numbers !!! i))
      by (apply list_lookup_lookup_total_lt; lia).
    rewrite sum_app. simpl. specialize (IH ltac:(lia)). lia.
Qed.

Lemma sum_take_last (numbers : list Z) :
  numbers ≠ [] →
  sum numbers
  = sum (take (length numbers - 1) numbers) + numbers !!! (length numbers - 1)%nat.
Proof.
  intros Hne.
  assert (0 < length numbers)%nat as Hlen by (destruct numbers; [done|simpl; lia]).
  rewrite <- (take_drop (length numbers - 1) numbers) at 1.
  rewrite sum_app. f_equal.
  rewrite (drop_S _ (numbers !!! (length numbers - 1)%nat))
    by (apply list_lookup_lookup_total_lt; lia).
  rewrite drop_ge by lia. simpl. lia.
Qed.

(** X2: whatever the numbers of a non-empty hint line (positive or not), the
    assertions [_add_column] adds have a model only when the runs and the
    gaps between them fit the line:
    [sum(numbers) + len(numbers) - 1 <= size]. *)
Theorem line_has_to_fit m numbers skip base size prefix solver :
  numbers ≠ [] →
  models m (_add_column numbers skip base size prefix solver) →
  sum numbers + (Z.of_nat (length numbers) - 1) ≤ size.
Proof.
  intros Hne Hm. apply _add_column_placed in Hm as [_ Hplaced]; [|done].
  assert (0 < length numbers)%nat as Hlen by (destruct numbers; [done|simpl; lia]).
  pose proof (placed_offset_sum _ _ _ _ _ _ (length numbers - 1) Hplaced
                ltac:(lia)) as Hlow.
  pose proof (placed_last _ _ _ _ _ _ Hplaced) as Hlast.
  rewrite (sum_take_last numbers Hne). lia.
Qed.

Lemma line_has_to_fit_witness : sum [2; 1] + (Z.of_nat (length [2; 1]) - 1) ≤ 5.
Proof.
  exact (line_has_to_fit sample_line_model [2; 1] 1 0 5 "h0" []
           ltac:(discriminate) sample_line_models).
Defined.

(** ** One line: the assertions hold exactly for the lines that read the hints *)

Lemma line_table_value prefix cells (i : nat) :
  (i < length (run_starts cells))%nat →
  table_value (line_table prefix cells) (fmt_sd prefix i) = run_starts cells !!! i.
Proof.
  intros Hi. apply table_value_unique.
  - intros z (k & Hk%fmt_sd_inj & Hz)%elem_of_line_table. subst k.
    symmetry. by apply list_lookup_total_correct.
  - apply elem_of_line_table. exists i. split; [done|].
    by apply list_lookup_lookup_total_lt.
Qed.

(** A line is a model of the assertions of its own hints. *)
Lemma line_model_models f skip base size prefix :
  models (line_model f prefix (line_cells f skip base size))
    (_add_column (line_hints (line_cells f skip base size)) skip base size
       prefix []).
Proof.
  destruct (decide (line_hints (line_cells f skip base size) = [])) as [Hnil|Hne].
  - rewrite Hnil. apply _add_column_nil_models. split; [constructor|].
    destruct (decide (0 ≤ size)); [by apply line_hints_nil_empty|].
    intros k Hk. lia.
  - assert (0 ≤ size) as Hsize.
    { destruct (decide (0 ≤ size)); [done|]. destruct Hne.
      unfold line_cells, xrange. by rewrite seqZ_nil by lia. }
    apply _add_column_placed; [done|]. split; [constructor|].
    apply (line_placed_ext _
             (λ i, run_starts (line_cells f skip base size) !!! i));
      [|done|by apply line_cells_placed].
    intros i Hi. unfold offsets, line_model. simpl. symmetry.
    apply line_table_value. by rewrite run_starts_length.
Qed.

(** X3: for a non-empty hint line of positive numbers, an array satisfies
    the assertions of the line, for some values of the placement variables,
    exactly when the maximal runs of filled cells of the line are the
    numbers, in order. *)
Theorem line_encoding_exact f numbers skip base size prefix :
  numbers ≠ [] → Forall (λ c, 0 < c) numbers →
  (∃ env, models (Model f env) (_add_column numbers skip base size prefix []))
  ↔ line_hints (line_cells f skip base size) = numbers.
Proof.
  intros Hne Hpos. split.
  - intros [env Hm]. apply _add_column_placed in Hm as [_ Hplaced]; [|done].
    by apply (line_placed_hints _ (offsets (Model f env) prefix)).
  - intros <-. exists (table_value (line_table prefix (line_cells f skip base size))).
    apply line_model_models.
Qed.

Lemma line_encoding_exact_witness :
  ∃ env, models (Model (array_f sample_line_model) env)
           (_add_column [2; 1] 1 0 5 "h0" []).
Proof.
  apply (line_encoding_exact (array_f sample_line_model) [2; 1] 1 0 5 "h0"
           ltac:(discriminate) ltac:(by repeat constructor)).
  reflexivity.
Defined.

(** ** The assertions of a line are about its cells only *)

Lemma numbers_lookup_nonneg (numbers : list Z) (i : nat) :
  Forall (λ c, 0 ≤ c) numbers → (i < length numbers)%nat → 0 ≤ numbers !!! i.
Proof.
  intros Hpos Hi. rewrite Forall_lookup in Hpos.
  apply (Hpos i). by apply list_lookup_lookup_total_lt.
Qed.

Lemma placed_offset_nonneg f o numbers skip base size (i : nat) :
  line_placed f o numbers skip base size → Forall (λ c, 0 ≤ c) numbers →
  (i < length numbers)%nat → 0 ≤ o i.
Proof.
  intros Hplaced Hpos. induction i as [|i IH]; intros Hi.
  - apply (placed_first _ _ _ _ _ _ Hplaced).
  - pose proof (placed_order _ _ _ _ _ _ Hplaced i Hi).
    pose proof (numbers_lookup_nonneg numbers i Hpos ltac:(lia)).
    specialize (IH ltac:(lia)). lia.
Qed.

Lemma placed_run_end f o numbers skip base size (d i : nat) :
  line_placed f o numbers skip base size → Forall (λ c, 0 ≤ c) numbers →
  (i + d = length numbers - 1)%nat → (0 < length numbers)%nat →
  o i + numbers !!! i ≤ size.
Proof.
  intros Hplaced Hpos. revert i. induction d as [|d IH]; intros i Hi Hlen.
  - replace i with (length numbers - 1)%nat by lia.
    apply (placed_last _ _ _ _ _ _ Hplaced).
  - pose proof (placed_order _ _ _ _ _ _ Hplaced i ltac:(lia)).
    pose proof (numbers_lookup_nonneg numbers (S i) Hpos ltac:(lia)).
    specialize (IH (S i) ltac:(lia) Hlen). lia.
Qed.

Lemma line_placed_local f f' o numbers skip base size :
  Forall (λ c, 0 ≤ c) numbers → numbers ≠ [] →
  (∀ k, 0 ≤ k < size → cell f skip base k = cell f' skip base k) →
  line_placed f o numbers skip base size →
  line_placed f' o numbers skip base size.
Proof.
  intros Hpos Hne Hagree Hplaced.
  assert (0 < length numbers)%nat as Hlen by (destruct numbers; [done|simpl; lia]).
  assert (∀ i, (i < length numbers)%nat →
            0 ≤ o i ∧ o i + numbers !!! i ≤ size) as Hrange.
  { intros i Hi. split.
    - by apply (placed_offset_nonneg f o numbers skip base size).
    - apply (placed_run_end f o numbers skip base size (length numbers - 1 - i));
        (done || lia). }
  destruct Hplaced as [P1 P2 P3 P4 P5 P6 P7]. split; try done.
  - intros i c t Hc Ht.
    pose proof (lookup_lt_Some _ _ _ Hc) as Hi.
    destruct (Hrange i Hi) as [Hlo Hhi].
    rewrite (list_lookup_total_correct _ _ _ Hc) in Hhi.
    replace (base + (o i + t) * skip) with (base + skip * (o i + t)) by lia.
    fold (cell f' skip base (o i + t)). rewrite <- Hagree by lia.
    unfold cell. replace (base + skip * (o i + t)) with (base + (o i + t) * skip) by lia.
    by apply (P4 i c).
  - intros z Hz. rewrite <- Hagree; [by apply P5|].
    destruct (Hrange 0%nat Hlen). pose proof (numbers_lookup_nonneg numbers 0 Hpos Hlen).
    lia.
  - intros i z Hi Hz. rewrite <- Hagree; [by apply (P6 i)|].
    destruct (Hrange i ltac:(lia)). destruct (Hrange (S i) Hi).
    pose proof (numbers_lookup_nonneg numbers i Hpos ltac:(lia)).
    pose proof (numbers_lookup_nonneg numbers (S i) Hpos Hi). lia.
  - intros z Hz. rewrite <- Hagree; [by apply P7|].
    destruct (Hrange (length numbers - 1)%nat ltac:(lia)).
    pose proof (numbers_lookup_nonneg numbers (length numbers - 1) Hpos ltac:(lia)).
    lia.
Qed.

(** X4: the assertions of a line whose numbers are not negative constrain
    the cells of that line and no other cell: two arrays that agree on the
    [size] cells of the line satisfy them, under the same values of the
    integer constants, together or not at all. *)
Theorem line_encoding_local f f' env numbers skip base size prefix :
  Forall (λ c, 0 ≤ c) numbers →
  (∀ k, 0 ≤ k < size → cell f skip base k = cell f' skip base k) →
  models (Model f env) (_add_column numbers skip base size prefix [])
  ↔ models (Model f' env) (_add_column numbers skip base size prefix []).
Proof.
  intros Hpos Hagree.
  destruct (decide (numbers = [])) as [->|Hne].
  - rewrite !_add_column_nil_models. simpl.
    split; intros [Hs Hc]; (split; [constructor|]); intros k Hk.
    + rewrite <- Hagree by done. by apply Hc.
    + rewrite Hagree by done. by apply Hc.
  - rewrite !_add_column_placed by done. unfold offsets. simpl.
    split; intros [Hs Hp]; (split; [constructor|]).
    + by apply (line_placed_local f f').
    + apply (line_placed_local f' f); try done.
      intros k Hk. symmetry. by apply Hagree.
Qed.

Lemma line_encoding_local_witness :
  models (Model (array_f sample_line_model) (int_const sample_line_model))
    (_add_column [2; 1] 1 0 5 "h0" [])
  ↔ models (Model (λ k, array_f sample_line_model k || bool_decide (k = 7))
              (int_const sample_line_model))
      (_add_column [2; 1] 1 0 5 "h0" []).
Proof.
  apply (line_encoding_local (array_f sample_line_model)
           (λ k, array_f sample_line_model k || bool_decide (k = 7))
           (int_const sample_line_model) [2; 1] 1 0 5 "h0").
  - by repeat constructor.
  - intros k Hk. unfold cell.
    rewrite (bool_decide_eq_false_2 (0 + 1 * k = 7)) by lia.
    by rewrite orb_false_r.
Defined.

(** ** The list of assertions of one line *)

Lemma _add_column_list numbers skip base size prefix solver :
  numbers ≠ [] →
  _add_column numbers skip base size prefix solver
  = solver ++ line_assertions numbers skip base size prefix.
Proof.
  intros Hne. unfold _add_column, line_assertions. case_decide; [done|].
  cbv zeta.
  erewrite (for_body_fmap _ _ (range _)) by reflexivity.
  erewrite (for_body_bind
    (λ sc, (λ i, Select (Add (IntVal base) (Mul (Add sc.1 (IntVal i)) (IntVal skip))))
           <$> xrange sc.2) _ (zip _ _))
    by (intros [s c] s0; apply for_add_fmap).
  erewrite (for_body_fmap _ _ (range _)) by reflexivity.
  unfold add. rewrite <- !app_assoc. reflexivity.
Qed.

Lemma fill_length (vs : list ArithRef) (numbers : list Z) skip base :
  length vs = length numbers →
  length (zip vs numbers ≫= λ sc,
            (λ i, Select (Add (IntVal base) (Mul (Add sc.1 (IntVal i)) (IntVal skip))))
            <$> xrange sc.2)
  = sum_list_with Z.to_nat numbers.
Proof.
  revert vs. induction numbers as [|c numbers IH]; intros [|s vs] Hlen;
    simpl in *; try done.
  rewrite length_app, length_fmap. unfold xrange at 1. rewrite length_seqZ.
  f_equal. apply IH. lia.
Qed.

(** X5: a call of [_add_column] on numbers and a [size] that fit a C long
    leaves the assertions the solver holds as they are and adds its own
    after them, the same whatever the solver holds: [size] of them (none
    for a negative [size]) for the empty hint line, and otherwise two per
    number, two more, and one per cell of every run. *)
Theorem _add_column_only_adds numbers skip base size prefix solver :
  Forall fits_c_long numbers → fits_c_long size →
  _add_column numbers skip base size prefix solver
  = solver ++ _add_column numbers skip base size prefix []
  ∧ length (_add_column numbers skip base size prefix [])
    = (if decide (numbers = []) then Z.to_nat size
       else 2 * length numbers + 2 + sum_list_with Z.to_nat numbers)%nat.
Proof.
  intros _ _. split; [apply _add_column_frame|].
  case_decide as Hn.
  - subst numbers. unfold _add_column. simpl. rewrite for_add_fmap. simpl.
    unfold xrange. by rewrite length_fmap, length_seqZ.
  - rewrite _add_column_list by done.
    assert (0 < length numbers)%nat as Hlen by (destruct numbers; [done|simpl; lia]).
    unfold line_assertions. cbv zeta. rewrite app_nil_l, !length_app.
    rewrite fill_length by (unfold range; by rewrite length_fmap, length_seq).
    rewrite !length_fmap. unfold range. rewrite !length_seq.
    cbn [length]. lia.
Qed.

(** ** The integer constants of one line *)

Lemma elem_of_line_assertions p numbers skip base size prefix :
  let n := length numbers in
  let v := λ i, Int (fmt_sd prefix i) in
  numbers ≠ [] →
  p ∈ line_assertions numbers skip base size prefix
  ↔ p = Ge (v 0%nat) (IntVal 0)
    ∨ (∃ i, (S i < n)%nat
            ∧ p = Lt (Add (v i) (IntVal (numbers !!! i))) (v (S i)))
    ∨ p = Le (Add (v (n - 1)%nat) (IntVal (numbers !!! (n - 1)%nat))) (IntVal size)
    ∨ (∃ i c t, numbers !! i = Some c ∧ 0 ≤ t < c
                ∧ p = Select (Add (IntVal base)
                                  (Mul (Add (v i) (IntVal t)) (IntVal skip))))
    ∨ p = ForAll (fmt_s__1 prefix)
            (Or (Lt (Int (fmt_s__1 prefix)) (IntVal 0))
                (Le (v 0%nat) (Int (fmt_s__1 prefix)))
                (Not (field_at base skip (Int (fmt_s__1 prefix)))))
    ∨ (∃ i, (S i < n)%nat
            ∧ p = ForAll (fmt_s_d prefix i)
                    (Or (Lt (Int (fmt_s_d prefix i))
                            (Add (v i) (IntVal (numbers !!! i))))
                        (Le (v (S i)) (Int (fmt_s_d prefix i)))
                        (Not (field_at base skip (Int (fmt_s_d prefix i))))))
    ∨ p = ForAll (fmt_s_d prefix n)
            (Or (Lt (Int (fmt_s_d prefix n))
                    (Add (v (n - 1)%nat) (IntVal (numbers !!! (n - 1)%nat))))
                (Ge (Int (fmt_s_d prefix n)) (IntVal size))
                (Not (field_at base skip (Int (fmt_s_d prefix n))))).
Proof.
  intros n v Hne.
  assert (0 < length numbers)%nat as Hlen by (destruct numbers; [done|simpl; lia]).
  unfold line_assertions. cbv zeta.
  rewrite !elem_of_app, !list_elem_of_singleton, !list_elem_of_fmap,
    list_elem_of_bind.
  rewrite !placement_var_lookup by lia. fold n. fold (v 0%nat). fold (v (n - 1)%nat).
  setoid_rewrite elem_of_range.
  assert (∀ i, (i < n - 1)%nat ↔ (S i < n)%nat) as Hlt by (intros; lia).
  split.
  - intros [?|[(i & -> & Hi)|[?|[(sc & Hp & Hsc)|[?|[(i & -> & Hi)|?]]]]]].
    + by left.
    + right; left. exists i. split; [lia|].
      by rewrite !placement_var_lookup by (unfold n in *; lia).
    + by right; right; left.
    + right; right; right; left. destruct sc as [s c].
      apply elem_of_zip_placement_vars in Hsc as (i & -> & Hc).
      apply list_elem_of_fmap in Hp as (t & -> & Ht%elem_of_xrange).
      by exists i, c, t.
    + by right; right; right; right; left.
    + right; right; right; right; right; left. exists i. split; [lia|].
      by rewrite !placement_var_lookup by (unfold n in *; lia).
    + by right; right; right; right; right; right.
  - intros [?|[(i & Hi & ->)|[?|[(i & c & t & Hc & Ht & ->)|[?|[(i & Hi & ->)|?]]]]]].
    + by left.
    + right; left. exists i. split; [|lia].
      by rewrite !placement_var_lookup by (unfold n in *; lia).
    + by right; right; left.
    + right; right; right; left. exists (v i, c). split.
      * apply list_elem_of_fmap. exists t. split; [done|]. by apply elem_of_xrange.
      * apply elem_of_zip_placement_vars. by exists i.
    + by right; right; right; right; left.
    + right; right; right; right; right; left. exists i. split; [|lia].
      by rewrite !placement_var_lookup by (unfold n in *; lia).
    + by right; right; right; right; right; right.
Qed.

Lemma _add_column_only_adds_witness :
  _add_column [2; 1] 1 0 5 "h0" [Not (Select (IntVal 7))]
  = [Not (Select (IntVal 7))] ++ _add_column [2; 1] 1 0 5 "h0" []
  ∧ length (_add_column [2; 1] 1 0 5 "h0" []) = 9%nat.
Proof.
  apply (_add_column_only_adds [2; 1] 1 0 5 "h0" [Not (Select (IntVal 7))]);
    solve_fits.
Defined.

(** X6: the integer constants z3 has to find a value for in the assertions
    of a non-empty hint line are the placement variables [prefix0],
    [prefix1], ..., one per number of the line, and no other: the names the
    quantifiers bind do not occur free. *)
Theorem placement_variables numbers skip base size prefix x :
  numbers ≠ [] →
  x ∈ _add_column numbers skip base size prefix [] ≫= free_consts
  ↔ ∃ i, (i < length numbers)%nat ∧ x = fmt_sd prefix i.
Proof.
  intros Hne.
  assert (0 < length numbers)%nat as Hlen by (destruct numbers; [done|simpl; lia]).
  rewrite _add_column_list, app_nil_l by done.
  rewrite list_elem_of_bind.
  setoid_rewrite (elem_of_line_assertions _ numbers skip base size prefix Hne).
  split.
  - intros (p & Hx & [-> | [(i & Hi & ->) | [-> | [(i & c & t & Hc & Ht & ->)
                          | [-> | [(i & Hi & ->) | -> ]]]]]]);
      unfold field_at in Hx; simpl in Hx;
      rewrite ?list_elem_of_filter, ?elem_of_app, ?elem_of_cons, ?elem_of_nil in Hx.
    + destruct_or?; try done. exists 0%nat. by split.
    + destruct_or?; try done;
        [exists i|exists (S i)]; (split; [lia|done]).
    + destruct_or?; try done. exists (length numbers - 1)%nat. split; [lia|done].
    + apply lookup_lt_Some in Hc. destruct_or?; try done. by exists i.
    + destruct_and?; destruct_or?; try done. exists 0%nat. by split.
    + destruct_and?; destruct_or?; try done;
        [exists i|exists (S i)]; (split; [lia|done]).
    + destruct_and?; destruct_or?; try done.
      exists (length numbers - 1)%nat. split; [lia|done].
  - intros (i & Hi & ->). destruct i as [|i].
    + exists (Ge (Int (fmt_sd prefix 0)) (IntVal 0)). split; [|by left].
      simpl. left.
    + exists (Lt (Add (Int (fmt_sd prefix i)) (IntVal (numbers !!! i)))
                 (Int (fmt_sd prefix (S i)))).
      split; [|right; left; by exists i].
      simpl. rewrite !elem_of_cons. by right; left.
Qed.

Lemma placement_variables_witness :
  "h01" ∈ _add_column [2; 1] 1 0 5 "h0" [] ≫= free_consts
  ↔ ∃ i, (i < length [2; 1])%nat ∧ "h01" = fmt_sd "h0" i.
Proof.
  exact (placement_variables [2; 1] 1 0 5 "h0" "h01" ltac:(discriminate)).
Defined.

(** ** What [solve] returns is an answer *)

Lemma drop_zero_line_pos (c : list Z) :
  Forall (λ x, 0 < x) c → drop_zero_line c = c.
Proof.
  intros Hpos. unfold drop_zero_line. case_decide as Hc; [|done].
  subst c. apply Forall_cons in Hpos as [? _]. lia.
Qed.

Lemma model_line_hints_ok m c skip base size prefix :
  models m (_add_column c skip base size prefix []) → hint_line_ok c →
  line_hints (line_cells (array_f m) skip base size) = drop_zero_line c.
Proof.
  intros Hm [->|Hpos].
  - apply line_hints_empty. destruct m as [f env].
    by apply (zero_hint_cells f env skip base size prefix).
  - rewrite drop_zero_line_pos by done.
    destruct (decide (c = [])) as [->|Hne].
    + apply _add_column_nil_models in Hm as [_ Hempty].
      by apply line_hints_empty.
    + apply _add_column_placed in Hm as [_ Hplaced]; [|done].
      by apply (line_placed_hints _ (offsets m prefix)).
Qed.

Lemma model_grid_hints_ok m horizontal vertical :
  models m (encode horizontal vertical) →
  Forall hint_line_ok horizontal → Forall hint_line_ok vertical →
  let q := grid_of (array_f m) (length vertical) (length horizontal) in
  row_hints q (length horizontal) = drop_zero_line <$> horizontal
  ∧ column_hints q = drop_zero_line <$> vertical.
Proof.
  intros [Hrows Hcols]%models_encode Hh Hv. cbv zeta.
  rewrite row_hints_grid_of, column_hints_grid_of. unfold range.
  rewrite Forall_lookup in Hh. rewrite Forall_lookup in Hv. split.
  - apply list_eq. intros j. rewrite !list_lookup_fmap.
    destruct (horizontal !! j) as [c|] eqn:Hc.
    + rewrite lookup_seq_lt by (by apply lookup_lt_Some in Hc). simpl.
      f_equal. eapply model_line_hints_ok; [by apply Hrows|by apply (Hh j)].
    + by rewrite lookup_seq_ge by (by apply lookup_ge_None in Hc).
  - apply list_eq. intros i. rewrite !list_lookup_fmap.
    destruct (vertical !! i) as [c|] eqn:Hc.
    + rewrite lookup_seq_lt by (by apply lookup_lt_Some in Hc). simpl.
      f_equal. eapply model_line_hints_ok; [by apply Hcols|by apply (Hv i)].
    + by rewrite lookup_seq_ge by (by apply lookup_ge_None in Hc).
Qed.

Lemma grid_of_columns f width height :
  Forall (λ col, length col = height) (grid_of f width height).
Proof.
  apply Forall_lookup. intros i col Hcol. by apply grid_of_column in Hcol.
Qed.

Lemma solve_new_some check horizontal vertical q :
  (solve check (__init__ horizontal vertical)).1 = Some q →
  ∃ m, check (encode horizontal vertical) = sat m
       ∧ q = grid_of (array_f m) (length vertical) (length horizontal).
Proof.
  rewrite solve_new. simpl.
  destruct (check (encode horizontal vertical)) as [m| |]; [|done..].
  intros [= <-]. exists m. by rewrite read_grid_grid_of.
Qed.

(** X7: when z3 answers [sat] only with a model of the assertions, and every
    hint line is positive numbers or the one number 0, a grid [solve]
    returns is an answer of the puzzle: it has [width] columns of [height]
    cells, the runs of its rows read the horizontal hints and the runs of
    its columns the vertical hints (none for a hint line 0). *)
Theorem solve_answer_sound check horizontal vertical q :
  (∀ m, check (encode horizontal vertical) = sat m →
        models m (encode horizontal vertical)) →
  Forall hint_line_ok horizontal → Forall hint_line_ok vertical →
  (solve check (__init__ horizontal vertical)).1 = Some q →
  length q = length vertical
  ∧ Forall (λ col, length col = length horizontal) q
  ∧ row_hints q (length horizontal) = drop_zero_line <$> horizontal
  ∧ column_hints q = drop_zero_line <$> vertical.
Proof.
  intros Hsound Hh Hv (m & Hcheck & ->)%solve_new_some.
  split; [apply grid_of_length|]. split; [apply grid_of_columns|].
  by apply model_grid_hints_ok; [apply Hsound| |].
Qed.

Lemma doc_hints_ok :
  Forall hint_line_ok doc_horizontal ∧ Forall hint_line_ok doc_vertical.
Proof. split; repeat constructor; right; by repeat constructor. Qed.

Lemma solve_answer_sound_witness :
  length doc_grid = length doc_vertical
  ∧ Forall (λ col, length col = length doc_horizontal) doc_grid
  ∧ row_hints doc_grid (length doc_horizontal) = drop_zero_line <$> doc_horizontal
  ∧ column_hints doc_grid = drop_zero_line <$> doc_vertical.
Proof.
  apply (solve_answer_sound (check_sat doc_model) doc_horizontal doc_vertical).
  - intros m [= <-]. apply doc_model_models.
  - apply doc_hints_ok.
  - apply doc_hints_ok.
  - reflexivity.
Defined.

(** ** Puzzles without an answer *)

Lemma no_model_outcome check horizontal vertical fout :
  (∀ m, ¬ models m (encode horizontal vertical)) →
  (∀ m, check (encode horizontal vertical) = sat m →
        models m (encode horizontal vertical)) →
  (solve check (__init__ horizontal vertical)).1 = None
  ∧ (print_answer check (__init__ horizontal vertical) fout).1
    = (Returned, fout +:+ "No solutions!" +:+ newline).
Proof.
  intros Hunsat Hsound.
  assert (∀ m, check (encode horizontal vertical) ≠ sat m) as Hcheck.
  { intros m Hm. destruct (Hunsat m). by apply Hsound. }
  unfold print_answer. rewrite solve_new.
  destruct (check (encode horizontal vertical)) as [m| |]; [by destruct (Hcheck m)|done..].
Qed.

(** X8: a hint line that does not fit makes the puzzle one without answer:
    for hints that fit a C long, when the numbers of some row with their
    gaps need more than [width] cells, or those of some column more than
    [height], and z3 answers [sat] only with a model of the assertions,
    [solve] returns [None] and [print_answer] writes [No solutions!]. *)
Theorem unfit_line_no_solution check horizontal vertical c fout :
  hints_fit horizontal → hints_fit vertical →
  (∀ m, check (encode horizontal vertical) = sat m →
        models m (encode horizontal vertical)) →
  c ≠ [] →
  (c ∈ horizontal
   ∧ Z.of_nat (length vertical) < sum c + (Z.of_nat (length c) - 1))
  ∨ (c ∈ vertical
     ∧ Z.of_nat (length horizontal) < sum c + (Z.of_nat (length c) - 1)) →
  (solve check (__init__ horizontal vertical)).1 = None
  ∧ (print_answer check (__init__ horizontal vertical) fout).1
    = (Returned, fout +:+ "No solutions!" +:+ newline).
Proof.
  intros _ _ Hsound Hne Hc. apply no_model_outcome; [|done].
  intros m [Hrows Hcols]%models_encode.
  destruct Hc as [[[j Hj]%list_elem_of_lookup Hlong]|[[i Hi]%list_elem_of_lookup Hlong]].
  - specialize (Hrows j c Hj).
    apply _add_column_placed in Hrows as [_ Hplaced]; [|done].
    assert (0 < length c)%nat as Hlen by (destruct c; [done|simpl; lia]).
    pose proof (placed_offset_sum _ _ _ _ _ _ (length c - 1) Hplaced ltac:(lia)).
    pose proof (placed_last _ _ _ _ _ _ Hplaced).
    rewrite (sum_take_last c Hne) in Hlong. lia.
  - specialize (Hcols i c Hi).
    apply _add_column_placed in Hcols as [_ Hplaced]; [|done].
    assert (0 < length c)%nat as Hlen by (destruct c; [done|simpl; lia]).
    pose proof (placed_offset_sum _ _ _ _ _ _ (length c - 1) Hplaced ltac:(lia)).
    pose proof (placed_last _ _ _ _ _ _ Hplaced).
    rewrite (sum_take_last c Hne) in Hlong. lia.
Qed.

Lemma unfit_line_no_solution_witness :
  (solve check_unsat (__init__ [[1; 1]] [[1]; [1]])).1 = None
  ∧ (print_answer check_unsat (__init__ [[1; 1]] [[1]; [1]]) EmptyString).1
    = (Returned, EmptyString +:+ "No solutions!" +:+ newline).
Proof.
  apply (unfit_line_no_solution check_unsat [[1; 1]] [[1]; [1]] [1; 1] EmptyString).
  - solve_fits.
  - solve_fits.
  - intros m Hm. discriminate Hm.
  - discriminate.
  - left. split; [left|]. simpl. lia.
Defined.

(** ** Counting the filled cells by rows and by columns *)

Lemma sum_cons (x : Z) (l : list Z) : sum (x :: l) = x + sum l.
Proof. reflexivity. Qed.

Lemma filled_cells_fmap {A : Type} (g : A → bool) (l : list A) :
  filled_cells (g <$> l) = sum ((λ x, Z.b2z (g x)) <$> l).
Proof.
  unfold filled_cells. induction l as [|x l IH]; [done|].
  rewrite !fmap_cons, sum_cons, <- IH. destruct (g x).
  - rewrite filter_cons_True by done. simpl length. simpl Z.b2z. lia.
  - rewrite filter_cons_False by done. simpl Z.b2z. lia.
Qed.

Lemma sum_fmap_add {A : Type} (a b : A → Z) (l : list A) :
  sum ((λ x, a x + b x) <$> l) = sum (a <$> l) + sum (b <$> l).
Proof.
  induction l as [|x l IH]; [done|]. rewrite !fmap_cons, !sum_cons, IH. lia.
Qed.

Lemma sum_swap (a : nat → nat → Z) (w h : nat) :
  sum ((λ i, sum ((λ j, a i j) <$> range h)) <$> range w)
  = sum ((λ j, sum ((λ i, a i j) <$> range w)) <$> range h).
Proof.
  induction w as [|w IH].
  - change (range 0) with (@nil nat). rewrite fmap_nil.
    induction (range h) as [|j l IHl]; [done|].
    rewrite fmap_cons, sum_cons, <- IHl. done.
  - assert (range (S w) = range w ++ [w]) as -> by (unfold range; by rewrite seq_S).
    rewrite fmap_app, sum_app, IH. rewrite fmap_cons, fmap_nil, sum_cons.
    change (sum []) with 0. rewrite Z.add_0_r, <- sum_fmap_add.
    f_equal. apply list_fmap_ext. intros _ j _.
    rewrite fmap_app, sum_app, fmap_cons, fmap_nil, sum_cons.
    change (sum []) with 0. lia.
Qed.

Lemma sum_line_hints_fmap {A : Type} (g : A → list bool) (l : list A) :
  sum (sum <$> ((λ x, line_hints (g x)) <$> l))
  = sum ((λ x, filled_cells (g x)) <$> l).
Proof.
  rewrite <- list_fmap_compose. f_equal. apply list_fmap_ext.
  intros _ x _. simpl. apply sum_line_hints.
Qed.

(** The runs of the rows of a grid and the runs of its columns have the
    same total: the number of filled cells. *)
Lemma grid_totals f width height :
  sum (sum <$> row_hints (grid_of f width height) height)
  = sum (sum <$> column_hints (grid_of f width height)).
Proof.
  rewrite row_hints_grid_of, column_hints_grid_of, !sum_line_hints_fmap.
  transitivity
    (sum ((λ j, sum ((λ i, Z.b2z (f (Z.of_nat j * Z.of_nat width + Z.of_nat i)))
                     <$> range width)) <$> range height)).
  - f_equal. apply list_fmap_ext. intros _ j _.
    rewrite line_cells_range, filled_cells_fmap. f_equal.
    apply list_fmap_ext. intros _ i _. simpl. do 2 f_equal. lia.
  - rewrite <- (sum_swap (λ i j, Z.b2z (f (Z.of_nat j * Z.of_nat width + Z.of_nat i)))).
    f_equal. apply list_fmap_ext. intros _ i _.
    rewrite line_cells_range, filled_cells_fmap. f_equal.
    apply list_fmap_ext. intros _ j _. simpl. do 2 f_equal. lia.
Qed.

Lemma sum_drop_zero_lines (hints : list (list Z)) :
  sum (sum <$> (drop_zero_line <$> hints)) = sum (sum <$> hints).
Proof.
  rewrite <- list_fmap_compose. f_equal. apply list_fmap_ext.
  intros _ c _. simpl. unfold drop_zero_line. by case_decide; [subst c|].
Qed.

(** X9: a puzzle whose row hints and column hints do not add up to the same
    number of filled cells has no answer: when the hints fit a C long, every
    hint line is positive numbers or the one number 0 and z3 answers [sat]
    only with a model of the assertions, [solve] returns [None] and
    [print_answer] writes [No solutions!]. *)
Theorem totals_differ_no_solution check horizontal vertical fout :
  hints_fit horizontal → hints_fit vertical →
  (∀ m, check (encode horizontal vertical) = sat m →
        models m (encode horizontal vertical)) →
  Forall hint_line_ok horizontal → Forall hint_line_ok vertical →
  sum (sum <$> horizontal) ≠ sum (sum <$> vertical) →
  (solve check (__init__ horizontal vertical)).1 = None
  ∧ (print_answer check (__init__ horizontal vertical) fout).1
    = (Returned, fout +:+ "No solutions!" +:+ newline).
Proof.
  intros _ _ Hsound Hh Hv Hdiff. apply no_model_outcome; [|done].
  intros m Hm. destruct (model_grid_hints_ok m _ _ Hm Hh Hv) as [Hrow Hcol].
  apply Hdiff.
  rewrite <- (sum_drop_zero_lines horizontal), <- (sum_drop_zero_lines vertical).
  rewrite <- Hrow, <- Hcol. apply grid_totals.
Qed.

Lemma totals_differ_no_solution_witness :
  (solve check_unsat (__init__ spec_horizontal (spec_vertical [0]))).1 = None
  ∧ (print_answer check_unsat (__init__ spec_horizontal (spec_vertical [0]))
       EmptyString).1
    = (Returned, EmptyString +:+ "No solutions!" +:+ newline).
Proof.
  apply (totals_differ_no_solution check_unsat spec_horizontal
           (spec_vertical [0]) EmptyString).
  - solve_fits.
  - solve_fits.
  - intros m Hm. discriminate Hm.
  - repeat constructor; right; by repeat constructor.
  - repeat constructor; first [by left | right; by repeat constructor].
  - simpl. lia.
Defined.

(** ** Printing again *)

Lemma for_io_appends {A : Type} (xs : list A)
    (body : A → string → outcome * string) :
  (∀ x, ∃ r t, ∀ fout, body x fout = (r, fout +:+ t)) →
  ∃ r t, ∀ fout, for_io xs body fout = (r, fout +:+ t).
Proof.
  intros Hbody. induction xs as [|x xs IH].
  - exists Returned, EmptyString. intros fout. simpl. by rewrite string_app_nil_r.
  - destruct (Hbody x) as (r & t & Hx). destruct IH as (r' & t' & Hxs).
    destruct r.
    + exists r', (t +:+ t'). intros fout. simpl. rewrite Hx, Hxs.
      by rewrite string_app_assoc.
    + exists IndexError, t. intros fout. simpl. by rewrite Hx.
Qed.

Lemma print_answer_solved check self fout :
  print_answer check (solve check self).2 fout = print_answer check self fout.
Proof.
  unfold print_answer. rewrite solve_again. by destruct (solve check self).
Qed.

Lemma print_answer_appends check self :
  ∃ r t, ∀ fout,
    print_answer check self fout = (r, fout +:+ t, (solve check self).2).
Proof.
  unfold print_answer. destruct (solve check self) as [[q|] d]; simpl.
  2:{ exists Returned, ("No solutions!" +:+ newline). intros fout. done. }
  destruct (q !! 0%nat) as [q0|].
  2:{ exists IndexError, EmptyString. intros fout. by rewrite string_app_nil_r. }
  destruct (for_io_appends (range (length q0))
    (λ j fout,
       match
         for_io (range (length q))
           (λ i fout,
              match q !! i ≫= (.!! j) with
              | None => (IndexError, fout)
              | Some true => write "x" fout
              | Some false => write "_" fout
              end) fout
       with
       | (Returned, fout) => write newline fout
       | raised => raised
       end)) as (r & t & Hfor).
  - intros j.
    destruct (for_io_appends (range (length q))
      (λ i fout,
         match q !! i ≫= (.!! j) with
         | None => (IndexError, fout)
         | Some true => write "x" fout
         | Some false => write "_" fout
         end)) as (r & t & Hrow).
    + intros i. destruct (q !! i ≫= (.!! j)) as [[]|].
      * by exists Returned, "x".
      * by exists Returned, "_".
      * exists IndexError, EmptyString. intros fout. by rewrite string_app_nil_r.
    + destruct r.
      * exists Returned, (t +:+ newline). intros fout. rewrite Hrow.
        unfold write. by rewrite string_app_assoc.
      * exists IndexError, t. intros fout. by rewrite Hrow.
  - exists r, t. intros fout. by rewrite Hfor.
Qed.

(** X10: [print_answer] can be called again on an instance whose hints fit
    a C long (so that [_solve] raises nothing): on the instance a first call
    leaves, a second call ends the same way and writes the same text after
    what its stream holds, leaves the instance as it is, and does not run
    [_solve] again; from a new instance [_solve] has run once. *)
Theorem print_answer_again check self fout fout' :
  hints_fit (_horizontal_hints self) → hints_fit (_vertical_hints self) →
  ∃ r text d,
    print_answer check self fout = (r, fout +:+ text, d)
    ∧ print_answer check d fout' = (r, fout' +:+ text, d)
    ∧ _solved d = true
    ∧ _solve_calls d
      = (if _solved self then _solve_calls self else S (_solve_calls self)).
Proof.
  intros _ _.
  destruct (print_answer_appends check self) as (r & t & Hprint).
  exists r, t, (solve check self).2.
  destruct (solve_after check self) as (Hs & _ & Hc).
  split; [apply Hprint|]. split; [|done].
  by rewrite print_answer_solved.
Qed.

Lemma print_answer_again_witness :
  ∃ r text d,
    print_answer (check_sat doc_model) (__init__ doc_horizontal doc_vertical)
      EmptyString
    = (r, EmptyString +:+ text, d)
    ∧ print_answer (check_sat doc_model) d "again" = (r, "again" +:+ text, d)
    ∧ _solved d = true
    ∧ _solve_calls d = 1%nat.
Proof.
  apply (print_answer_again (check_sat doc_model)
           (__init__ doc_horizontal doc_vertical) EmptyString "again");
    unfold doc_horizontal, doc_vertical; solve_fits.
Defined.

(** ** Reading an input *)

Lemma no_space_app (s t : string) :
  no_space (s +:+ t) = no_space s && no_space t.
Proof.
  induction s as [|c s IH]; [done|].
  rewrite string_app_cons. cbn [no_space]. by rewrite IH, andb_assoc.
Qed.

Lemma readline_token (t s : string) :
  no_space t = true →
  readline (t +:+ s) = ((t +:+ (readline s).1), (readline s).2).
Proof.
  induction t as [|c t IH]; intros Ht.
  - unfold String.append. by destruct (readline s).
  - cbn [no_space] in Ht. apply andb_true_iff in Ht as [Hc Ht].
    rewrite !string_app_cons. cbn [readline].
    destruct (decide (c = "010"%char)) as [->|_]; [done|].
    rewrite (IH Ht). done.
Qed.

Lemma readline_newline (s : string) : readline (newline +:+ s) = (newline, s).
Proof. done. Qed.

Lemma readline_unwords (tokens : list string) (s : string) :
  Forall (λ t, no_space t = true) tokens →
  readline (unwords tokens +:+ newline +:+ s) = (unwords tokens +:+ newline, s).
Proof.
  induction tokens as [|t [|t' tokens] IH]; intros Htokens.
  - done.
  - cbn [unwords]. apply Forall_cons in Htokens as [Ht _].
    by rewrite readline_token, readline_newline.
  - apply Forall_cons in Htokens as [Ht Htokens].
    change (unwords (t :: t' :: tokens))
      with (t +:+ " " +:+ unwords (t' :: tokens)).
    rewrite !string_app_assoc. rewrite readline_token by done.
    change (" " +:+ ?s) with (String " " s). cbn [readline].
    destruct (decide (" "%char = "010"%char)) as [|_]; [done|].
    rewrite (IH Htokens). done.
Qed.

Lemma split_from_token (cur t s : string) :
  no_space t = true → split_from cur (t +:+ s) = split_from (cur +:+ t) s.
Proof.
  revert cur. induction t as [|c t IH]; intros cur Ht.
  - by rewrite string_app_nil_r.
  - cbn [no_space] in Ht. apply andb_true_iff in Ht as [Hc Ht].
    rewrite string_app_cons. cbn [split_from].
    destruct (Ascii.is_space c); [done|].
    rewrite (IH _ Ht), string_app_assoc. done.
Qed.

Lemma split_unwords (tokens : list string) :
  Forall (λ t, no_space t = true ∧ t ≠ EmptyString) tokens →
  split (unwords tokens +:+ newline) = tokens.
Proof.
  unfold split. induction tokens as [|t [|t' tokens] IH]; intros Htokens.
  - done.
  - cbn [unwords]. apply Forall_cons in Htokens as [[Ht Hne] _].
    rewrite split_from_token by done.
    change (EmptyString +:+ t) with t. unfold newline.
    cbn [split_from Ascii.is_space].
    by destruct (decide (t = EmptyString)).
  - apply Forall_cons in Htokens as [[Ht Hne] Htokens].
    change (unwords (t :: t' :: tokens))
      with (t +:+ " " +:+ unwords (t' :: tokens)).
    rewrite !string_app_assoc. rewrite split_from_token by done.
    change (" " +:+ ?s) with (String " " s). cbn [split_from Ascii.is_space].
    change (EmptyString +:+ t) with t.
    destruct (decide (t = EmptyString)); [done|].
    rewrite (IH Htokens). done.
Qed.

(** The decimal numerals [pretty] writes have no whitespace and are not
    empty. *)
Lemma pretty_N_char_no_space (x : N) : Ascii.is_space (pretty_N_char x) = false.
Proof. unfold pretty_N_char. by repeat case_match. Qed.

Lemma pretty_N_go_no_space (x : N) (s : string) :
  no_space s = true → no_space (pretty_N_go x s) = true.
Proof.
  revert s. induction (N.lt_wf_0 x) as [x _ IH]; intros s Hs.
  destruct (decide (x = 0%N)) as [->|Hx]; [by rewrite pretty_N_go_0|].
  rewrite pretty_N_go_step by lia. apply IH.
  - apply N.div_lt; lia.
  - cbn [no_space]. by rewrite pretty_N_char_no_space, Hs.
Qed.

Lemma pretty_N_go_ne (x : N) (s : string) :
  s ≠ EmptyString → pretty_N_go x s ≠ EmptyString.
Proof.
  revert s. induction (N.lt_wf_0 x) as [x _ IH]; intros s Hs.
  destruct (decide (x = 0%N)) as [->|Hx]; [by rewrite pretty_N_go_0|].
  rewrite pretty_N_go_step by lia. apply IH; [apply N.div_lt; lia|done].
Qed.

Lemma pretty_N_token (x : N) :
  no_space (pretty x) = true ∧ pretty x ≠ EmptyString.
Proof.
  unfold pretty, pretty_N. destruct (decide (x = 0%N)) as [->|Hx]; [done|].
  split; [by apply pretty_N_go_no_space|].
  rewrite pretty_N_go_step by lia. by apply pretty_N_go_ne.
Qed.

Lemma pretty_Z_token (z : Z) :
  no_space (pretty z) = true ∧ pretty z ≠ EmptyString.
Proof.
  destruct z as [|p|p]; [done|apply pretty_N_token|].
  unfold pretty, pretty_Z. split; [|done].
  change ("-" +:+ ?s) with (String "-" s). cbn [no_space Ascii.is_space].
  apply (pretty_N_token (N.pos p)).
Qed.

Lemma format_line_tokens (numbers : list Z) :
  Forall (λ t, no_space t = true ∧ t ≠ EmptyString) (pretty <$> numbers).
Proof. apply Forall_fmap, Forall_true. intros z. apply pretty_Z_token. Qed.

Lemma readline_format_line (numbers : list Z) (s : string) :
  readline (format_line numbers +:+ s) = (format_line numbers, s).
Proof.
  unfold format_line. rewrite string_app_assoc. apply readline_unwords.
  eapply Forall_impl; [apply format_line_tokens|]. by intros t [? _].
Qed.

Lemma split_format_line (numbers : list Z) :
  split (format_line numbers) = pretty <$> numbers.
Proof. apply split_unwords, format_line_tokens. Qed.

Section ReadFacts.

Variable int : string → option Z.
Hypothesis int_pretty : ∀ z : Z, int (pretty z) = Some z.

Lemma ints_pretty (numbers : list Z) :
  ints int (pretty <$> numbers) = inr numbers.
Proof using int_pretty.
  induction numbers as [|z numbers IH]; [done|].
  rewrite fmap_cons. cbn [ints]. by rewrite int_pretty, IH.
Qed.

Lemma read_lines_end (n : nat) :
  read_lines int n EmptyString = (inr (replicate n []), EmptyString).
Proof. induction n as [|n IH]; [done|]. cbn. by rewrite IH. Qed.

Lemma read_lines_format (n : nat) (lines : list (list Z)) :
  read_lines int n (join (format_line <$> lines))
  = (inr (take n (lines ++ replicate (n - length lines) [])),
     join (format_line <$> drop n lines)).
Proof using int_pretty.
  revert lines. induction n as [|n IH]; intros lines.
  - by rewrite take_0, drop_0.
  - destruct lines as [|c lines].
    + rewrite read_lines_end. cbn [length]. rewrite Nat.sub_0_r.
      rewrite drop_nil. cbn [app]. by rewrite firstn_all2 by by rewrite length_replicate.
    + rewrite fmap_cons. cbn [join foldr read_lines].
      change (foldr String.append EmptyString (format_line <$> lines))
        with (join (format_line <$> lines)).
      rewrite readline_format_line. cbn [fst snd].
      rewrite split_format_line, ints_pretty, IH. done.
Qed.

End ReadFacts.

Lemma join_app (l k : list string) : join (l ++ k) = join l +:+ join k.
Proof.
  induction l as [|s l IH]; [done|].
  change (join ((s :: l) ++ k)) with (s +:+ join (l ++ k)).
  change (join (s :: l)) with (s +:+ join l).
  by rewrite IH, string_app_assoc.
Qed.

Lemma split_from_readline (cur fin : string) :
  split_from cur fin
  = split_from cur (readline fin).1 ++ split (readline fin).2.
Proof.
  revert cur. induction fin as [|c fin IH]; intros cur.
  - cbn. by rewrite app_nil_r.
  - cbn [readline]. destruct (decide (c = "010"%char)) as [->|Hc].
    + cbn [fst snd split_from Ascii.is_space].
      by destruct (decide (cur = EmptyString)).
    + destruct (readline fin) as [line rest] eqn:Hline.
      cbn [fst snd split_from] in *.
      destruct (Ascii.is_space c); [|apply IH].
      destruct (decide (cur = EmptyString)); [apply IH|].
      by rewrite (IH EmptyString).
Qed.

Lemma split_readline (fin : string) :
  split fin = split (readline fin).1 ++ split (readline fin).2.
Proof. apply split_from_readline. Qed.

(** The sample [int] reads the decimal numerals back. *)
Lemma is_nat_pretty_N_char (d : N) :
  (d < 10)%N → Ascii.is_nat (pretty_N_char d) = Some (N.to_nat d).
Proof.
  intros Hd.
  assert (d = 0 ∨ d = 1 ∨ d = 2 ∨ d = 3 ∨ d = 4 ∨ d = 5 ∨ d = 6 ∨ d = 7
          ∨ d = 8 ∨ d = 9)%N as Hcases by lia.
  by destruct_or?; subst.
Qed.

Lemma digits_value_pretty_N_go (x : N) (s : string) :
  digits_value 0 (pretty_N_go x s) = digits_value (Z.of_N x) s.
Proof.
  revert s. induction (N.lt_wf_0 x) as [x _ IH]; intros s.
  destruct (decide (x = 0%N)) as [->|Hx]; [by rewrite pretty_N_go_0|].
  rewrite pretty_N_go_step by lia. rewrite IH by (apply N.div_lt; lia).
  cbn [digits_value].
  rewrite is_nat_pretty_N_char by (apply N.mod_lt; lia).
  f_equal. rewrite N_nat_Z. 
  pose proof (N.div_mod x 10 ltac:(lia)). lia.
Qed.

Lemma digits_value_minus (acc : Z) (s : string) :
  digits_value acc (String "-" s) = None.
Proof. done. Qed.

Lemma int_decimal_pretty (z : Z) : int_decimal (pretty z) = Some z.
Proof.
  destruct z as [|p|p]; [done| |].
  - change (pretty (Z.pos p)) with (pretty (N.pos p)).
    pose proof (digits_value_pretty_N_go (N.pos p) EmptyString) as Hv.
    destruct (pretty_N_token (N.pos p)) as [_ Hne].
    change (pretty (N.pos p)) with (pretty_N_go (N.pos p) EmptyString) in *.
    cbn [digits_value] in Hv. 
    destruct (pretty_N_go (N.pos p) EmptyString) as [|c s]; [done|].
    unfold int_decimal.
    destruct (decide (c = "-"%char)) as [->|Hc]; [by rewrite digits_value_minus in Hv|].
    transitivity (digits_value 0 (String c s)); [|by rewrite Hv].
    destruct c as [[] [] [] [] [] [] [] []]; try done.
  - change (pretty (Z.neg p)) with ("-" +:+ pretty (N.pos p)).
    change ("-" +:+ ?s) with (String "-" s).
    pose proof (digits_value_pretty_N_go (N.pos p) EmptyString) as Hv.
    destruct (pretty_N_token (N.pos p)) as [_ Hne].
    change (pretty (N.pos p)) with (pretty_N_go (N.pos p) EmptyString) in *.
    cbn [digits_value] in Hv.
    destruct (pretty_N_go (N.pos p) EmptyString) as [|c s]; [done|].
    unfold int_decimal. by rewrite Hv.
Qed.

Section ReadInput.

Variable int : string → option Z.
Variable maxint : Z.

Lemma ints_raised (tokens : list string) (e : exception) :
  ints int tokens = inl e → e = value_error ∧ ∃ t, t ∈ tokens ∧ int t = None.
Proof.
  induction tokens as [|t tokens IH]; [done|]. cbn [ints].
  destruct (int t) as [z|] eqn:Ht.
  - destruct (ints int tokens) as [e'|zs]; [|done].
    intros [= ->]. destruct (IH eq_refl) as (-> & t' & Ht' & Hnone).
    split; [done|]. exists t'. split; [by right|done].
  - intros [= <-]. split; [done|]. exists t. split; [by left|done].
Qed.

Lemma read_lines_length (n : nat) (fin rest : string) (ls : list (list Z)) :
  read_lines int n fin = (inr ls, rest) → length ls = n.
Proof.
  revert fin ls. induction n as [|n IH]; intros fin ls; cbn [read_lines].
  - by intros [= <- _].
  - destruct (readline fin) as [line fin'].
    destruct (ints int (split line)) as [e|c]; [done|].
    destruct (read_lines int n fin') as [[e|cs] fin''] eqn:Hread;
      [intros [=]|].
    intros [= <- <-]. cbn [length]. f_equal. by eapply IH.
Qed.

Lemma read_lines_raised (n : nat) (fin rest : string) (e : exception) :
  read_lines int n fin = (inl e, rest) →
  e = value_error ∧ ∃ t, t ∈ split fin ∧ int t = None.
Proof.
  revert fin rest. induction n as [|n IH]; intros fin rest; cbn [read_lines];
    [done|].
  rewrite (split_readline fin).
  destruct (readline fin) as [line fin']. cbn [fst snd].
  destruct (ints int (split line)) as [e'|c] eqn:Hints.
  - intros [= -> _]. destruct (ints_raised _ _ Hints) as (-> & t & Ht & Hnone).
    split; [done|]. exists t. split; [|done]. apply elem_of_app. by left.
  - destruct (read_lines int n fin') as [[e'|cs] fin''] eqn:Hread;
      [|intros [=]].
    intros [= -> _]. destruct (IH _ _ Hread) as (-> & t & Ht & Hnone).
    split; [done|]. exists t. split; [|done]. apply elem_of_app. by right.
Qed.

Lemma read_lines_rest (n : nat) (fin rest : string) r (t : string) :
  read_lines int n fin = (r, rest) → t ∈ split rest → t ∈ split fin.
Proof.
  revert fin rest r. induction n as [|n IH]; intros fin rest r; cbn [read_lines].
  - by intros [= _ <-].
  - rewrite (split_readline fin).
    destruct (readline fin) as [line fin']. cbn [fst snd].
    destruct (ints int (split line)) as [e'|c].
    + intros [= _ <-] Ht. apply elem_of_app. by right.
    + destruct (read_lines int n fin') as [[e'|cs] fin''] eqn:Hread.
      * intros [= _ <-] Ht. apply elem_of_app. right. by eapply IH.
      * intros [= _ <-] Ht. apply elem_of_app. right. by eapply IH.
Qed.

(** X11: how [read_input] ends.  When it returns, the first line of the text
    has at least two tokens, which [int] reads as the width and the height,
    both fit a C long, and it returns [height] horizontal and [width]
    vertical hint lines (none for a negative number).  It raises IndexError
    only on a first line with fewer than two tokens, ValueError only when a
    token of the text is not an integer, and OverflowError only when the
    width or the height does not fit a C long: a text of integers with two
    that fit on its first line is never refused, whatever lines it has. *)
Theorem read_input_outcome (fin : string) :
  match (read_input int maxint fin).1 with
  | inr (horizontal, vertical) =>
      ∃ t0 t1 more width height,
        split (readline fin).1 = t0 :: t1 :: more
        ∧ int t0 = Some width ∧ int t1 = Some height
        ∧ fits_long maxint width ∧ fits_long maxint height
        ∧ length horizontal = Z.to_nat height
        ∧ length vertical = Z.to_nat width
  | inl index_error => (length (split (readline fin).1) < 2)%nat
  | inl value_error => ∃ t, t ∈ split fin ∧ int t = None
  | inl overflow_error =>
      ∃ t z, t ∈ take 2 (split (readline fin).1)
             ∧ int t = Some z ∧ ¬ fits_long maxint z
  end.
Proof.
  unfold read_input. rewrite (split_readline fin).
  destruct (readline fin) as [line fin1]. cbn [fst snd].
  destruct (split line) as [|t0 [|t1 more]] eqn:Hfirst; cbn [lookup list_lookup].
  - cbn. lia.
  - destruct (int t0) eqn:Ht0; cbn; [lia|].
    exists t0. split; [by left|done].
  - destruct (int t0) as [width|] eqn:Ht0.
    2:{ cbn. exists t0. split; [by left|done]. }
    destruct (int t1) as [height|] eqn:Ht1.
    2:{ cbn. exists t1. split; [by right; left|done]. }
    destruct (decide (fits_long maxint height)) as [Hheight|Hheight].
    2:{ cbn. exists t1, height. split; [by right; left|done]. }
    destruct (read_lines int (Z.to_nat height) fin1)
      as [[e|horizontal] fin2] eqn:Hh.
    { cbn. destruct (read_lines_raised _ _ _ _ Hh) as (-> & t & Ht & Hnone).
      exists t. split; [|done]. rewrite !elem_of_cons, elem_of_app. auto. }
    destruct (decide (fits_long maxint width)) as [Hwidth|Hwidth].
    2:{ cbn. exists t0, width. split; [by left|done]. }
    destruct (read_lines int (Z.to_nat width) fin2)
      as [[e|vertical] fin3] eqn:Hv.
    { cbn. destruct (read_lines_raised _ _ _ _ Hv) as (-> & t & Ht & Hnone).
      exists t. split; [|done]. rewrite !elem_of_cons, elem_of_app.
      right. right. right. by eapply read_lines_rest. }
    cbn. exists t0, t1, more, width, height.
    repeat split; try done; try apply Hheight; try apply Hwidth;
      by eapply read_lines_length.
Qed.

Hypothesis int_pretty : ∀ z : Z, int (pretty z) = Some z.

Lemma read_lines_text (n : nat) (lines : list (list Z)) :
  read_lines int n (join (format_line <$> lines))
  = (inr ((λ j, default [] (lines !! j)) <$> seq 0 n),
     join (format_line <$> drop n lines)).
Proof using int_pretty.
  revert lines. induction n as [|n IH]; intros lines; [done|].
  destruct lines as [|c lines].
  - change (join (format_line <$> [])) with EmptyString.
    rewrite read_lines_end, drop_nil. f_equal. f_equal.
    generalize (S n) 0%nat. clear. intros k.
    induction k as [|k IHk]; intros j; [done|].
    cbn [replicate seq]. by rewrite fmap_cons, <- IHk.
  - rewrite fmap_cons. cbn [join foldr read_lines].
    change (foldr String.append EmptyString (format_line <$> lines))
      with (join (format_line <$> lines)).
    rewrite readline_format_line.
    rewrite split_format_line, ints_pretty, IH by done.
    cbn [seq]. rewrite fmap_cons, <- fmap_S_seq, <- list_fmap_compose. done.
Qed.

Lemma read_input_text (width height : Z) (lines : list (list Z)) :
  fits_long maxint width → fits_long maxint height →
  read_input int maxint
    (format_line [width; height] +:+ join (format_line <$> lines))
  = (inr ((λ j, default [] (lines !! j)) <$> seq 0 (Z.to_nat height),
          (λ i, default [] (lines !! i))
            <$> seq (Z.to_nat height) (Z.to_nat width)),
     join (format_line <$> drop (Z.to_nat height + Z.to_nat width) lines)).
Proof using int_pretty.
  intros Hwidth Hheight.
  unfold read_input. rewrite readline_format_line, split_format_line.
  rewrite !fmap_cons. cbn [lookup list_lookup]. rewrite !int_pretty.
  rewrite decide_True by done. rewrite read_lines_text.
  rewrite decide_True by done. rewrite read_lines_text.
  rewrite drop_drop. f_equal. f_equal. f_equal.
  replace (seq (Z.to_nat height) (Z.to_nat width))
    with (Nat.add (Z.to_nat height) <$> seq 0 (Z.to_nat width))
    by (by rewrite fmap_add_seq, Nat.add_0_r).
  rewrite <- list_fmap_compose.
  apply list_fmap_ext. intros k j _. cbn. by rewrite lookup_drop.
Qed.

Lemma lines_lookup_seq (lines more : list (list Z)) :
  (λ j, default [] ((lines ++ more) !! j)) <$> seq 0 (length lines) = lines.
Proof.
  apply list_eq. intros j. rewrite list_lookup_fmap.
  destruct (decide (j < length lines)%nat) as [Hj|Hj].
  - rewrite lookup_seq_lt by done. cbn.
    rewrite lookup_app_l by done.
    destruct (lookup_lt_is_Some_2 lines j Hj) as [c Hc]. by rewrite Hc.
  - rewrite lookup_seq_ge by lia. rewrite lookup_ge_None_2 by lia. done.
Qed.

Lemma read_input_puzzle (horizontal vertical more : list (list Z)) :
  Z.of_nat (length horizontal) ≤ maxint →
  Z.of_nat (length vertical) ≤ maxint →
  read_input int maxint (format_input horizontal vertical
                         +:+ join (format_line <$> more))
  = (inr (horizontal, vertical), join (format_line <$> more)).
Proof using int_pretty.
  intros Hheight Hwidth.
  unfold format_input. rewrite !string_app_assoc, <- !join_app, <- !fmap_app.
  rewrite read_input_text by (unfold fits_long; lia).
  rewrite !Nat2Z.id. f_equal; [f_equal; f_equal|].
  - apply lines_lookup_seq.
  - replace (seq (length horizontal) (length vertical))
      with (Nat.add (length horizontal) <$> seq 0 (length vertical))
      by (by rewrite fmap_add_seq, Nat.add_0_r).
    rewrite <- list_fmap_compose.
    rewrite <- (lines_lookup_seq vertical more) at 2.
    apply list_fmap_ext. intros k j _. cbn.
    rewrite lookup_app_r by lia. do 2 f_equal. lia.
  - rewrite app_assoc, drop_app_length'; [done|]. by rewrite length_app.
Qed.

(** X12: [read_input] reads back the text of a puzzle: from the width and
    the height on a line, then the horizontal hint lines, then the vertical
    hint lines, every number in decimal, it returns these hint lists
    (an empty line is an empty hint line); lines after them are left
    unread.  The numbers of lines have to fit a C long. *)
Theorem read_input_format (horizontal vertical more : list (list Z)) :
  Z.of_nat (length horizontal) ≤ maxint →
  Z.of_nat (length vertical) ≤ maxint →
  read_input int maxint (format_input horizontal vertical
                         +:+ join (format_line <$> more))
  = (inr (horizontal, vertical), join (format_line <$> more)).
Proof using int_pretty. apply read_input_puzzle. Qed.

(** X13: [read_input] does not check that the lines are there: after the
    line of the width and the height, line [k] of the text is hint line [k]
    (the first [height] lines horizontal, the next [width] vertical), a line
    the text does not have is read as an empty hint line, and the lines
    after these are left unread; the width and the height fit a C long. *)
Theorem read_input_missing_lines (width height : Z) (lines : list (list Z)) :
  fits_long maxint width → fits_long maxint height →
  let h := Z.to_nat height in
  let w := Z.to_nat width in
  read_input int maxint
    (format_line [width; height] +:+ join (format_line <$> lines))
  = (inr ((λ j, default [] (lines !! j)) <$> seq 0 h,
          (λ i, default [] (lines !! i)) <$> seq h w),
     join (format_line <$> drop (h + w) lines)).
Proof using int_pretty. intros Hwidth Hheight. by apply read_input_text. Qed.

(** X14: [main] on the text of a puzzle does what [print_answer] does on
    the instance built from its hint lists: it writes the same text after
    what the output holds, and ends in an IndexError when [print_answer]
    does. *)
Theorem main_format check (horizontal vertical : list (list Z))
    (stdout : string) :
  Z.of_nat (length horizontal) ≤ maxint →
  Z.of_nat (length vertical) ≤ maxint →
  main int maxint check (format_input horizontal vertical) stdout
  = (match (print_answer check (__init__ horizontal vertical) stdout).1.1 with
     | Returned => inr tt
     | IndexError => inl index_error
     end,
     (print_answer check (__init__ horizontal vertical) stdout).1.2).
Proof using int_pretty.
  intros Hheight Hwidth. unfold main.
  pose proof (read_input_puzzle horizontal vertical [] Hheight Hwidth) as Hread.
  change (join (format_line <$> [])) with EmptyString in Hread.
  rewrite string_app_nil_r in Hread. rewrite Hread.
  by destruct (print_answer check (__init__ horizontal vertical) stdout)
    as [[[] out] d].
Qed.

End ReadInput.

Lemma read_input_format_witness :
  read_input int_decimal maxint64
    (format_input doc_horizontal doc_vertical +:+ join (format_line <$> [[7]]))
  = (inr (doc_horizontal, doc_vertical), join (format_line <$> [[7]])).
Proof.
  apply (read_input_format int_decimal maxint64 int_decimal_pretty
           doc_horizontal doc_vertical [[7]]); vm_compute; discriminate.
Defined.

Lemma read_input_missing_lines_witness :
  read_input int_decimal maxint64
    (format_line [2; 1] +:+ join (format_line <$> [[1; 1]; [1]]))
  = (inr ([[1; 1]], [[1]; []]), EmptyString).
Proof.
  apply (read_input_missing_lines int_decimal maxint64 int_decimal_pretty
           2 1 [[1; 1]; [1]]); vm_compute; split; discriminate.
Defined.

Lemma main_format_witness :
  main int_decimal maxint64 (check_sat doc_model)
    (format_input doc_horizontal doc_vertical) EmptyString
  = (inr tt, join ((λ l, l +:+ newline) <$> ["_xxx_"; "x___x"; "_xxx_"])).
Proof.
  apply (main_format int_decimal maxint64 int_decimal_pretty
           (check_sat doc_model) doc_horizontal doc_vertical EmptyString);
    vm_compute; discriminate.
Defined.

(** X15: the program solves the puzzles of grids.  For the grid of [width]
    columns (one at least) and [height] rows held by [f], no line of which
    has more than ten runs and whose sizes fit a C long, an [int] that reads
    decimal numerals, and a z3
    that answers [sat] only with a model of the assertions and does answer
    [sat] when they have a model: [main] on the text of the hints derived
    from the grid returns normally and writes, after what the output holds,
    the lines of a grid of the same size that has the same hints, rows and
    columns. *)
Theorem main_solves (int : string → option Z) (maxint : Z) check
    (f : Z → bool) (width height : nat) (stdout : string) :
  (∀ z : Z, int (pretty z) = Some z) →
  (0 < width)%nat → Z.of_nat width ≤ maxint → Z.of_nat height ≤ maxint →
  runs_bounded f width height 10 →
  let horizontal := row_hints (grid_of f width height) height in
  let vertical := column_hints (grid_of f width height) in
  (∀ m, check (encode horizontal vertical) = sat m →
        models m (encode horizontal vertical)) →
  ((∃ m, models m (encode horizontal vertical)) →
   ∃ m, check (encode horizontal vertical) = sat m) →
  ∃ q, main int maxint check (format_input horizontal vertical) stdout
       = (inr tt,
          stdout +:+ join ((λ l, l +:+ newline) <$> answer_lines q width height))
       ∧ length q = width
       ∧ Forall (λ col, length col = height) q
       ∧ row_hints q height = horizontal
       ∧ column_hints q = vertical.
Proof.
  intros Hint Hwidth Hw Hh' Hbound horizontal vertical Hsound Hcomplete.
  destruct Hcomplete as [m Hcheck].
  { exists (grid_model f width height). by apply grid_model_models. }
  pose proof (Hsound m Hcheck) as Hm.
  destruct (derived_hints_pos f width height) as [Hh Hv].
  destruct (model_grid_hints m horizontal vertical Hm Hh Hv) as [Hrow Hcol].
  assert (length horizontal = height) as Hlh.
  { unfold horizontal, row_hints, range. by rewrite length_fmap, length_seq. }
  assert (length vertical = width) as Hlv.
  { unfold vertical, column_hints. by rewrite length_fmap, grid_of_length. }
  pose proof (print_answer_new_sat check horizontal vertical m stdout Hcheck
                ltac:(lia)) as Hprint.
  rewrite Hlh, Hlv in Hrow, Hcol, Hprint.
  exists (grid_of (array_f m) width height).
  split; [|split; [apply grid_of_length|split; [apply grid_of_columns|done]]].
  unfold main.
  pose proof (read_input_puzzle int maxint Hint horizontal vertical []
                ltac:(lia) ltac:(lia)) as Hread.
  change (join (format_line <$> [])) with EmptyString in Hread.
  rewrite string_app_nil_r in Hread. rewrite Hread.
  destruct (print_answer check (__init__ horizontal vertical) stdout)
    as [[r out] d].
  by injection Hprint as -> ->.
Qed.

Lemma main_solves_witness :
  ∃ q, main int_decimal maxint64
         (check_sat (grid_model (array_f doc_model) 5 3))
         (format_input (row_hints (grid_of (array_f doc_model) 5 3) 3)
                       (column_hints (grid_of (array_f doc_model) 5 3)))
         EmptyString
       = (inr tt,
          EmptyString +:+ join ((λ l, l +:+ newline) <$> answer_lines q 5 3))
       ∧ length q = 5%nat
       ∧ Forall (λ col, length col = 3%nat) q
       ∧ row_hints q 3 = row_hints (grid_of (array_f doc_model) 5 3) 3
       ∧ column_hints q = column_hints (grid_of (array_f doc_model) 5 3).
Proof.
  apply (main_solves int_decimal maxint64
           (check_sat (grid_model (array_f doc_model) 5 3))
           (array_f doc_model) 5 3 EmptyString int_decimal_pretty
           ltac:(lia) ltac:(vm_compute; discriminate)
           ltac:(vm_compute; discriminate) doc_runs_bounded).
  - intros m [= <-]. apply grid_model_models, doc_runs_bounded.
  - intros _. by eexists.
Defined.
